(** * AbstractSettings: the typed settings registry of the download manager

    A shallow embedding of [src/core/abstractsettings.cpp].  The registry
    is a [QList] of heap allocated [SettingsItem]s, a preview flag
    [m_default] and the [changed()] signal; the persistent backend is the
    ["Preference"] group of the application's [QSettings].

    The object is modelled by explicit state passing.  A C++ exception
    leaves the object in the state it had when the exception was thrown,
    so every mutator returns its outcome together with the state. *)

From Stdlib Require Import Ascii.
From stdpp Require Import base list strings pretty gmap.

Open Scope string_scope.

(** ** QString

    A [QString] is either null (default constructed) or holds characters.
    [isNull] tells the two apart, [isEmpty] and [operator==] do not: Qt
    compares the characters, and a null string has none. *)

Inductive QString : Type :=
  | QNull
  | QStr (s : string).

Definition qdata (q : QString) : string :=
  match q with
  | QNull => ""
  | QStr s => s
  end.

Definition isNull (q : QString) : bool :=
  match q with
  | QNull => true
  | QStr _ => false
  end.

(** [operator==] and [operator!=] on [QString] (and on [QLatin1String]). *)
Definition qeqb (a b : QString) : bool := String.eqb (qdata a) (qdata b).
Definition qneb (a b : QString) : bool := negb (qeqb a b).

Definition UNDEFINED : string := "<UNDEFINED>".
Definition VALUE_TRUE : string := "<TRUE>".
Definition VALUE_FALSE : string := "<FALSE>".

(** ** Helper methods *)

Definition boolToString (b : bool) : QString :=
  if b then QStr VALUE_TRUE else QStr VALUE_FALSE.

Definition stringToBool (str : QString) : bool := qeqb str (QStr VALUE_TRUE).

(** [QString::number(int)]: decimal digits, with a leading minus sign for
    negative numbers. *)
Definition intToString (value : Z) : QString := QStr (pretty value).

(** The characters [QString::number] writes: digits and the minus sign. *)
Definition numeralChar (c : ascii) : bool :=
  let n := nat_of_ascii c in
  ((48 <=? n)%nat && (n <=? 57)%nat) || (n =? 45)%nat.

Fixpoint numeral (s : string) : bool :=
  match s with
  | EmptyString => true
  | String c s' => numeralChar c && numeral s'
  end.

Fixpoint endsNumeral (s : string) : bool :=
  match s with
  | EmptyString => false
  | String c EmptyString => numeralChar c
  | String _ s' => endsNumeral s'
  end.

(** [QString::toInt()], base 10 in the C locale: surrounding white space
    is skipped, an optional sign is followed by decimal digits, and the
    result is [0] when the text is not a number or does not fit an
    [int]. *)
Definition is_space (c : ascii) : bool :=
  let n := nat_of_ascii c in
  ((9 <=? n)%nat && (n <=? 13)%nat) || (n =? 32)%nat.

Fixpoint skip_space (s : string) : string :=
  match s with
  | String c s' => if is_space c then skip_space s' else s
  | EmptyString => s
  end.

Definition trimmed (s : string) : string :=
  String.rev (skip_space (String.rev (skip_space s))).

Fixpoint digits_value (s : string) (acc : Z) : option Z :=
  match s with
  | EmptyString => Some acc
  | String c s' =>
      let n := nat_of_ascii c in
      if ((48 <=? n)%nat && (n <=? 57)%nat)
      then digits_value s' (10 * acc + (Z.of_nat n - 48))%Z
      else None
  end.

Definition unsigned_value (s : string) : option Z :=
  match s with
  | EmptyString => None
  | _ => digits_value s 0
  end.

Definition in_int_range (z : Z) : bool :=
  ((- 2147483648 <=? z) && (z <=? 2147483647))%Z.

Definition stringToInt (str : QString) : Z :=
  let parsed :=
    match trimmed (qdata str) with
    | String "-" s' => Z.opp <$> unsigned_value s'
    | String "+" s' => unsigned_value s'
    | s => unsigned_value s
    end in
  match parsed with
  | Some z => if in_int_range z then z else 0%Z
  | None => 0%Z
  end.

(** ** The registry *)

Inductive KeyType : Type := BOOL | INTEGER | STRING.

Global Instance KeyType_eq_dec : EqDecision KeyType.
Proof. solve_decision. Defined.

(** Keys are only ever tested with [isEmpty], compared with [==] and
    spliced into other strings, none of which tells a null key from an
    empty one; a key is therefore modelled by its characters. *)
Record SettingsItem : Type := mkItem {
  keyType : KeyType;
  key : string;
  value : QString;
  defaultValue : QString;
}.

(** [emitted] counts the [emit changed()] statements executed so far: the
    signal carries no payload, so a call counter connected to it observes
    exactly this number. *)
Record AbstractSettings : Type := mkSettings {
  m_items : list SettingsItem;
  m_default : bool;
  emitted : nat;
}.

(** The constructor: no item, [m_default] false. *)
Definition newSettings : AbstractSettings :=
  {| m_items := []; m_default := false; emitted := 0 |}.

Inductive Exception : Type :=
  | IllegalKeyException
  | IllegalValueException
  | WrongTypeException
  | MissingKeyException.

Inductive Result (A : Type) : Type :=
  | Return (a : A)
  | Throw (e : Exception).
Arguments Return {A} a.
Arguments Throw {A} e.

(** A member function that may mutate the object and may throw. *)
Definition Method (A : Type) : Type :=
  AbstractSettings -> Result A * AbstractSettings.

(** Sequencing of two statements: the second runs only when the first
    returned; an exception propagates with the state reached so far. *)
Definition andThen (c1 c2 : Method unit) : Method unit :=
  fun this =>
    match c1 this with
    | (Return _, this') => c2 this'
    | (Throw e, this') => (Throw e, this')
    end.

Infix ">>" := andThen (at level 60, right associativity).

Definition beginRestoreDefault (this : AbstractSettings) : AbstractSettings :=
  {| m_items := m_items this; m_default := true; emitted := emitted this |}.

Definition endRestoreDefault (this : AbstractSettings) : AbstractSettings :=
  {| m_items := m_items this; m_default := false; emitted := emitted this |}.

(** ** QSettings

    The ["Preference"] group of the application settings: a finite map
    from names to the stored strings. *)
Abbreviation QSettings := (gmap string QString).

Definition contains (settings : QSettings) (name : string) : bool :=
  bool_decide (is_Some (settings !! name)).

(** [settings.value(name, fallback).toString()] *)
Definition valueOr (settings : QSettings) (name : string) (fallback : QString)
  : QString :=
  default fallback (settings !! name).

Definition setValue (settings : QSettings) (name : string) (v : QString)
  : QSettings :=
  <[name := v]> settings.

Definition uniqueRegisterKey (item : SettingsItem) : string :=
  match keyType item with
  | BOOL => key item +:+ "_bool"
  | INTEGER => key item +:+ "_int"
  | STRING => key item
  end.

Definition setItemValue (item : SettingsItem) (v : QString) : SettingsItem :=
  {| keyType := keyType item; key := key item;
     value := v; defaultValue := defaultValue item |}.

Definition setItemDefault (item : SettingsItem) (d : QString) : SettingsItem :=
  {| keyType := keyType item; key := key item;
     value := value item; defaultValue := d |}.

(** One iteration of the loop of [readSettings]. *)
Definition readItem (settings : QSettings) (item : SettingsItem) : SettingsItem :=
  let v := valueOr settings (uniqueRegisterKey item) (QStr UNDEFINED) in
  setItemValue item (if qneb v (QStr UNDEFINED) then v else defaultValue item).

Definition readSettings (settings : QSettings) (this : AbstractSettings)
  : AbstractSettings :=
  {| m_items := readItem settings <$> m_items this;
     m_default := m_default this;
     emitted := S (emitted this) |}.

(** One iteration of the loop of [writeSettings]. *)
Definition writeItem (settings : QSettings) (item : SettingsItem) : QSettings :=
  let name := uniqueRegisterKey item in
  if qneb (value item) (defaultValue item) || contains settings name
  then setValue settings name (value item)
  else settings.

Definition writeSettings (settings : QSettings) (this : AbstractSettings)
  : QSettings :=
  foldl writeItem settings (m_items this).

(** ** Registration, reads and writes *)

(** [key.isEmpty() || key == UNDEFINED] *)
Definition illegalKey (k : string) : bool :=
  String.eqb k "" || String.eqb k UNDEFINED.

(** [value.isNull() || value == UNDEFINED] *)
Definition illegalValue (v : QString) : bool :=
  isNull v || qeqb v (QStr UNDEFINED).

(** The [foreach] of [_q_addDefaultSetting]: the first item of this type
    and key has its default replaced; [None] when the loop runs to its
    end without finding one. *)
Fixpoint replaceDefault (items : list SettingsItem) (k : string)
    (d : QString) (kt : KeyType) : option (list SettingsItem) :=
  match items with
  | [] => None
  | item :: rest =>
      if bool_decide (keyType item = kt) && String.eqb (key item) k
      then Some (setItemDefault item d :: rest)
      else cons item <$> replaceDefault rest k d kt
  end.

(** [new SettingsItem()] followed by the three assignments: [value] keeps
    the null string it is constructed with. *)
Definition newItem (k : string) (d : QString) (kt : KeyType) : SettingsItem :=
  {| keyType := kt; key := k; value := QNull; defaultValue := d |}.

Definition _q_addDefaultSetting (k : string) (d : QString) (kt : KeyType)
  : Method unit :=
  fun this =>
    if illegalKey k then (Throw IllegalKeyException, this)
    else if illegalValue d then (Throw IllegalValueException, this)
    else
      match replaceDefault (m_items this) k d kt with
      | Some items' =>
          (Return tt,
           {| m_items := items'; m_default := m_default this;
              emitted := emitted this |})
      | None =>
          (Return tt,
           {| m_items := m_items this ++ [newItem k d kt];
              m_default := m_default this; emitted := emitted this |})
      end.

(** The [foreach] of [_q_getSetting]. *)
Fixpoint getLoop (items : list SettingsItem) (dflt : bool) (k : string)
    (kt : KeyType) : Result QString :=
  match items with
  | [] => Throw MissingKeyException
  | item :: rest =>
      if String.eqb (key item) k then
        if negb (bool_decide (keyType item = kt))
        then Throw WrongTypeException
        else Return (if dflt then defaultValue item else value item)
      else getLoop rest dflt k kt
  end.

Definition _q_getSetting (this : AbstractSettings) (k : string) (kt : KeyType)
  : Result QString :=
  if illegalKey k then Throw IllegalKeyException
  else getLoop (m_items this) (m_default this) k kt.

(** The [foreach] of [_q_setSetting]: the outcome, the items and whether
    [changed()] was emitted. *)
Fixpoint setLoop (items : list SettingsItem) (k : string) (v : QString)
    (kt : KeyType) : Result unit * list SettingsItem * bool :=
  match items with
  | [] => (Throw MissingKeyException, [], false)
  | item :: rest =>
      if String.eqb (key item) k then
        if negb (bool_decide (keyType item = kt))
        then (Throw WrongTypeException, items, false)
        else if qneb (value item) v
        then (Return tt, setItemValue item v :: rest, true)
        else (Return tt, items, false)
      else
        let '(r, rest', e) := setLoop rest k v kt in
        (r, item :: rest', e)
  end.

Definition _q_setSetting (k : string) (v : QString) (kt : KeyType)
  : Method unit :=
  fun this =>
    if illegalKey k then (Throw IllegalKeyException, this)
    else if illegalValue v then (Throw IllegalValueException, this)
    else
      let '(r, items', e) := setLoop (m_items this) k v kt in
      (r, {| m_items := items'; m_default := m_default this;
             emitted := if e then S (emitted this) else emitted this |}).

Definition mapResult {A B : Type} (f : A -> B) (r : Result A) : Result B :=
  match r with
  | Return a => Return (f a)
  | Throw e => Throw e
  end.

Definition addDefaultSettingBool (k : string) (d : bool) : Method unit :=
  _q_addDefaultSetting k (boolToString d) BOOL.

Definition getSettingBool (this : AbstractSettings) (k : string) : Result bool :=
  mapResult stringToBool (_q_getSetting this k BOOL).

Definition setSettingBool (k : string) (v : bool) : Method unit :=
  _q_setSetting k (boolToString v) BOOL.

Definition addDefaultSettingInt (k : string) (d : Z) : Method unit :=
  _q_addDefaultSetting k (intToString d) INTEGER.

Definition getSettingInt (this : AbstractSettings) (k : string) : Result Z :=
  mapResult stringToInt (_q_getSetting this k INTEGER).

Definition setSettingInt (k : string) (v : Z) : Method unit :=
  _q_setSetting k (intToString v) INTEGER.

Definition addDefaultSettingString (k : string) (d : QString) : Method unit :=
  _q_addDefaultSetting k d STRING.

Definition getSettingString (this : AbstractSettings) (k : string)
  : Result QString :=
  _q_getSetting this k STRING.

Definition setSettingString (k : string) (v : QString) : Method unit :=
  _q_setSetting k v STRING.

(** ** String lists *)

(** [QString::arg] replaces place markers, which all start with the
    character [%].  A key without that character holds none. *)
Fixpoint noPlaceMarker (k : string) : bool :=
  match k with
  | EmptyString => true
  | String c k' => negb (Ascii.eqb c "%") && noPlaceMarker k'
  end.

(** [QString("%0%1").arg(key).arg(i)].  The first [arg] puts the key in
    the place of [%0], the second one rescans the result and replaces the
    lowest marker it finds.  For a key with [noPlaceMarker] that is the
    trailing [%1], and the result is the key followed by the decimal
    index, as defined here; a key with markers of its own is substituted
    too and is not covered.  The statements on the list operations are
    made for keys with [noPlaceMarker]. *)
Definition subkey (k : string) (i : nat) : string := k +:+ pretty i.

(** The value a reader sees: the default while the defaults are shown. *)
Definition shown (dflt : bool) (item : SettingsItem) : QString :=
  if dflt then defaultValue item else value item.

(** The inner [foreach] of [getSettingStringList], for one sub-key. *)
Fixpoint collect (items : list SettingsItem) (dflt : bool) (sub : string)
  : list QString :=
  match items with
  | [] => []
  | item :: rest =>
      if String.eqb (key item) sub
      then shown dflt item :: collect rest dflt sub
      else collect rest dflt sub
  end.

(** The outer loop, for [i] from [i] up to [i + n - 1]. *)
Fixpoint scanFrom (items : list SettingsItem) (dflt : bool) (k : string)
    (i n : nat) : list QString :=
  match n with
  | O => []
  | S n' => collect items dflt (subkey k i) ++ scanFrom items dflt k (S i) n'
  end.

Definition getSettingStringList (this : AbstractSettings) (k : string)
  : list QString :=
  scanFrom (m_items this) (m_default this) k 0 (length (m_items this)).

(** The loop of [addDefaultSettingStringList], from index [i]. *)
Fixpoint addDefaultsFrom (k : string) (i : nat) (ds : list QString)
  : Method unit :=
  match ds with
  | [] => fun this => (Return tt, this)
  | d :: ds' => addDefaultSettingString (subkey k i) d >> addDefaultsFrom k (S i) ds'
  end.

Definition addDefaultSettingStringList (k : string) (ds : list QString)
  : Method unit :=
  addDefaultsFrom k 0 ds.

(** The loop of [setSettingStringList], from index [i]. *)
Fixpoint setValuesFrom (k : string) (i : nat) (vs : list QString)
  : Method unit :=
  match vs with
  | [] => fun this => (Return tt, this)
  | v :: vs' => setSettingString (subkey k i) v >> setValuesFrom k (S i) vs'
  end.

Definition setSettingStringList (k : string) (vs : list QString)
  : Method unit :=
  setValuesFrom k 0 vs.

(** ** Observations used by the statements below *)

(** The item that [_q_getSetting] and [_q_setSetting] stop at: the first
    one registered under the key, whatever its type. *)
Fixpoint firstItem (items : list SettingsItem) (k : string)
  : option SettingsItem :=
  match items with
  | [] => None
  | item :: rest => if String.eqb (key item) k then Some item else firstItem rest k
  end.

(** A key is registered under a type when the lookup by key ends on an
    item of that type. *)
Definition registeredAs (this : AbstractSettings) (k : string) (kt : KeyType)
  : Prop :=
  exists item, firstItem (m_items this) k = Some item /\ keyType item = kt.

(** The items once [item->value = v] has run on that item. *)
Fixpoint assignFirst (items : list SettingsItem) (k : string) (v : QString)
  : list SettingsItem :=
  match items with
  | [] => []
  | item :: rest =>
      if String.eqb (key item) k
      then setItemValue item v :: rest
      else item :: assignFirst rest k v
  end.

Definition currentValue (this : AbstractSettings) (k : string) : option QString :=
  value <$> firstItem (m_items this) k.

Definition storedDefault (this : AbstractSettings) (k : string) : option QString :=
  defaultValue <$> firstItem (m_items this) k.

(** The reading of [getStringList] that stops at the first index without
    a sub-key: the shown values of [k+i], [k+(i+1)], ... for at most [n]
    indices. *)
Fixpoint consecutiveFrom (items : list SettingsItem) (dflt : bool) (k : string)
    (i n : nat) : list QString :=
  match n with
  | O => []
  | S n' =>
      match firstItem items (subkey k i) with
      | Some item => shown dflt item :: consecutiveFrom items dflt k (S i) n'
      | None => []
      end
  end.

Definition consecutiveValues (this : AbstractSettings) (k : string)
  : list QString :=
  consecutiveFrom (m_items this) (m_default this) k 0 (length (m_items this)).

(** What an item keeps when its default is forgotten. *)
Definition withoutDefault (item : SettingsItem) : KeyType * string * QString :=
  (keyType item, key item, value item).

(** What an item keeps when its current value is forgotten: its line of
    the schema. *)
Definition schemaOf (item : SettingsItem) : KeyType * string * QString :=
  (keyType item, key item, defaultValue item).

(** Registering a schema, line after line. *)
Fixpoint registerSchema (schema : list (KeyType * string * QString))
  : Method unit :=
  match schema with
  | [] => fun this => (Return tt, this)
  | (kt, k, d) :: rest => _q_addDefaultSetting k d kt >> registerSchema rest
  end.

(** ** Sequences of calls

    The owner of the registry drives it by calls of its public member
    functions, against the settings file of the application.  A call that
    throws leaves both in the state reached when it threw.  The getters
    are [const] and take no part in the state. *)
Inductive Call : Type :=
  | AddDefaultSettingBool (k : string) (d : bool)
  | AddDefaultSettingInt (k : string) (d : Z)
  | AddDefaultSettingString (k : string) (d : QString)
  | AddDefaultSettingStringList (k : string) (ds : list QString)
  | SetSettingBool (k : string) (v : bool)
  | SetSettingInt (k : string) (v : Z)
  | SetSettingString (k : string) (v : QString)
  | SetSettingStringList (k : string) (vs : list QString)
  | BeginRestoreDefault
  | EndRestoreDefault
  | ReadSettings
  | WriteSettings.

Record World : Type := mkWorld {
  registry : AbstractSettings;
  settings : QSettings;
}.

Definition mutate (m : Method unit) (w : World) : World :=
  {| registry := snd (m (registry w)); settings := settings w |}.

Definition call (w : World) (c : Call) : World :=
  match c with
  | AddDefaultSettingBool k d => mutate (addDefaultSettingBool k d) w
  | AddDefaultSettingInt k d => mutate (addDefaultSettingInt k d) w
  | AddDefaultSettingString k d => mutate (addDefaultSettingString k d) w
  | AddDefaultSettingStringList k ds => mutate (addDefaultSettingStringList k ds) w
  | SetSettingBool k v => mutate (setSettingBool k v) w
  | SetSettingInt k v => mutate (setSettingInt k v) w
  | SetSettingString k v => mutate (setSettingString k v) w
  | SetSettingStringList k vs => mutate (setSettingStringList k vs) w
  | BeginRestoreDefault =>
      {| registry := beginRestoreDefault (registry w); settings := settings w |}
  | EndRestoreDefault =>
      {| registry := endRestoreDefault (registry w); settings := settings w |}
  | ReadSettings =>
      {| registry := readSettings (settings w) (registry w);
         settings := settings w |}
  | WriteSettings =>
      {| registry := registry w;
         settings := writeSettings (settings w) (registry w) |}
  end.

(** The program starts with a fresh registry and whatever the settings
    file holds. *)
Definition start (stored : QSettings) : World :=
  {| registry := newSettings; settings := stored |}.

Definition run (stored : QSettings) (calls : list Call) : World :=
  foldl call (start stored) calls.

(** What the code keeps true of every item: a legal key, a legal default
    and a current value that is not the reserved marker. *)
Definition itemOk (item : SettingsItem) : Prop :=
  illegalKey (key item) = false
  /\ illegalValue (defaultValue item) = false
  /\ qeqb (value item) (QStr UNDEFINED) = false.

(** Save, start again with the same schema, load. *)
Definition roundTrip (w : World) : AbstractSettings :=
  let saved := writeSettings (settings w) (registry w) in
  let fresh := snd (registerSchema (schemaOf <$> m_items (registry w)) newSettings) in
  readSettings saved fresh.

(** The type and the key of an item: what [_q_addDefaultSetting] looks
    an item up by. *)
Definition pairOf (item : SettingsItem) : KeyType * string :=
  (keyType item, key item).

(** The registry [after] holds the items of [before], in their order and
    with their types and keys, possibly followed by more; and it holds no
    pair of type and key twice if [before] held none twice. *)
Definition grows (before after : AbstractSettings) : Prop :=
  pairOf <$> m_items before `prefix_of` pairOf <$> m_items after
  /\ (NoDup (pairOf <$> m_items before) -> NoDup (pairOf <$> m_items after)).

(** No string is registered under a key that ends like the name of a
    boolean or of an integer. *)
Definition plainStringKeys (items : list SettingsItem) : Prop :=
  forall item stem,
    item ∈ items -> keyType item = STRING ->
    key item <> stem +:+ "_bool" /\ key item <> stem +:+ "_int".

(** The calls that register. *)
Definition registers (c : Call) : bool :=
  match c with
  | AddDefaultSettingBool _ _ | AddDefaultSettingInt _ _
  | AddDefaultSettingString _ _ | AddDefaultSettingStringList _ _ => true
  | _ => false
  end.

(** The items [addDefaultSettingStringList] appends, one per element,
    from index [i] on, when none of the sub-keys is registered yet. *)
Fixpoint listItems (k : string) (i : nat) (ds : list QString)
  : list SettingsItem :=
  match ds with
  | [] => []
  | d :: ds' => newItem (subkey k i) d STRING :: listItems k (S i) ds'
  end.

(** The two guards that open [_q_setSetting]: in the first two goals the
    call has thrown, in the third the key and the value are legal. *)
Ltac set_guards k v Hk Hv :=
  destruct (illegalKey k) eqn:Hk;
  [ unfold _q_setSetting; rewrite Hk
  | destruct (illegalValue v) eqn:Hv;
    [ unfold _q_setSetting; rewrite Hk, Hv | ] ].

(** * Properties *)

(** ** Strings and the marker values *)

Lemma qeqb_refl (a : QString) : qeqb a a = true.
Proof. unfold qeqb. apply String.eqb_refl. Qed.

Lemma qeqb_sym (a b : QString) : qeqb a b = qeqb b a.
Proof. unfold qeqb. apply String.eqb_sym. Qed.

Lemma qeqb_true (a b : QString) : qeqb a b = true <-> qdata a = qdata b.
Proof. unfold qeqb. apply String.eqb_eq. Qed.

Lemma qeqb_trans (a b c : QString) :
  qeqb a b = true -> qeqb b c = true -> qeqb a c = true.
Proof. rewrite !qeqb_true. congruence. Qed.

Lemma qneb_false (a b : QString) : qneb a b = false <-> qeqb a b = true.
Proof. unfold qneb. destruct (qeqb a b); simpl; split; congruence. Qed.

Lemma boolToString_legal (b : bool) : illegalValue (boolToString b) = false.
Proof. by destruct b. Qed.

Lemma stringToBool_boolToString (b : bool) : stringToBool (boolToString b) = b.
Proof. by destruct b. Qed.

(** ** Lookup by key *)

Lemma getLoop_firstItem items dflt k kt :
  getLoop items dflt k kt =
    match firstItem items k with
    | None => Throw MissingKeyException
    | Some item =>
        if bool_decide (keyType item = kt)
        then Return (shown dflt item)
        else Throw WrongTypeException
    end.
Proof.
  induction items as [|item rest IH]; simpl; [done|].
  destruct (String.eqb (key item) k); [|exact IH].
  by destruct (bool_decide (keyType item = kt)).
Qed.

Lemma firstItem_key items k item :
  firstItem items k = Some item -> key item = k.
Proof.
  induction items as [|it rest IH]; simpl; [done|].
  destruct (String.eqb (key it) k) eqn:E; [|exact IH].
  intros [= <-]. by apply String.eqb_eq.
Qed.

Lemma firstItem_elem items k item :
  firstItem items k = Some item -> item ∈ items.
Proof.
  induction items as [|it rest IH]; simpl; [done|].
  destruct (String.eqb (key it) k).
  - intros [= <-]. left.
  - intros H. right. auto.
Qed.

Lemma get_registered this k kt item :
  illegalKey k = false ->
  firstItem (m_items this) k = Some item ->
  keyType item = kt ->
  _q_getSetting this k kt = Return (shown (m_default this) item).
Proof.
  intros Hk Hf Ht. unfold _q_getSetting. rewrite Hk, getLoop_firstItem, Hf.
  by rewrite bool_decide_eq_true_2.
Qed.

Lemma setLoop_firstItem items k v kt :
  setLoop items k v kt =
    match firstItem items k with
    | None => (Throw MissingKeyException, items, false)
    | Some item =>
        if bool_decide (keyType item = kt) then
          if qneb (value item) v
          then (Return tt, assignFirst items k v, true)
          else (Return tt, items, false)
        else (Throw WrongTypeException, items, false)
    end.
Proof.
  induction items as [|item rest IH]; simpl; [done|].
  destruct (String.eqb (key item) k).
  - destruct (bool_decide (keyType item = kt)); simpl; [|done].
    by destruct (qneb (value item) v).
  - rewrite IH. destruct (firstItem rest k) as [it|]; [|done].
    destruct (bool_decide (keyType it = kt)); [|done].
    by destruct (qneb (value it) v).
Qed.

Lemma firstItem_assignFirst items k v k' :
  firstItem (assignFirst items k v) k' =
    if String.eqb k k'
    then (fun item => setItemValue item v) <$> firstItem items k
    else firstItem items k'.
Proof.
  induction items as [|item rest IH]; simpl.
  - by destruct (String.eqb k k').
  - destruct (String.eqb (key item) k) eqn:E; simpl.
    + apply String.eqb_eq in E. rewrite E.
      by destruct (String.eqb k k').
    + destruct (String.eqb (key item) k') eqn:E'; [|exact IH].
      destruct (String.eqb k k') eqn:Ekk; [|done].
      apply String.eqb_eq in Ekk. congruence.
Qed.

Lemma length_assignFirst items k v :
  length (assignFirst items k v) = length items.
Proof.
  induction items as [|item rest IH]; simpl; [done|].
  destruct (String.eqb (key item) k); simpl; congruence.
Qed.

(** The whole of [_q_setSetting] on a legal key and a legal value. *)
Lemma set_legal this k v kt :
  illegalKey k = false ->
  illegalValue v = false ->
  _q_setSetting k v kt this =
    match firstItem (m_items this) k with
    | None => (Throw MissingKeyException, this)
    | Some item =>
        if bool_decide (keyType item = kt) then
          if qneb (value item) v
          then (Return tt,
                {| m_items := assignFirst (m_items this) k v;
                   m_default := m_default this;
                   emitted := S (emitted this) |})
          else (Return tt, this)
        else (Throw WrongTypeException, this)
    end.
Proof.
  intros Hk Hv. unfold _q_setSetting. rewrite Hk, Hv, setLoop_firstItem.
  destruct this as [items dflt n]; simpl.
  destruct (firstItem items k) as [item|]; [|done].
  destruct (bool_decide (keyType item = kt)); [|done].
  by destruct (qneb (value item) v).
Qed.

(** A call of [_q_setSetting] that returns was made with a legal key and
    a legal value on a key registered under the type. *)
Lemma set_returns this k v kt this' :
  _q_setSetting k v kt this = (Return tt, this') ->
  illegalKey k = false /\ illegalValue v = false /\ registeredAs this k kt.
Proof.
  set_guards k v Hk Hv; [done..|]. intros H.
  rewrite set_legal in H by done.
  split; [done|]. split; [done|].
  destruct (firstItem (m_items this) k) as [item|] eqn:Hf; [|done].
  destruct (bool_decide (keyType item = kt)) eqn:Ht; [|done].
  apply bool_decide_eq_true_1 in Ht. by exists item.
Qed.

(** ** Reading right after registration *)

(** C1: [getBool(k)] right after [registerBool(k, d)] on a fresh registry
    should be [d].  The new item is appended with its [value] still the
    null string, so outside the preview the read decodes the null string:
    after [addDefaultSettingBool("k", true)] the call
    [getSettingBool("k")] returns false.  The default shows only in the
    preview of the defaults, or once [readSettings] found nothing stored
    and fell back on it. *)
Theorem fresh_bool_reads_false :
  (let this := snd (addDefaultSettingBool "k" true newSettings) in
   getSettingBool this "k" = Return false
   /\ getSettingBool (beginRestoreDefault this) "k" = Return true
   /\ getSettingBool (readSettings ∅ this) "k" = Return true)
  /\ (forall k d,
        illegalKey k = false ->
        getSettingBool (snd (addDefaultSettingBool k d newSettings)) k
        = Return false).
Proof.
  split; [by vm_compute|].
  intros k d Hk.
  unfold addDefaultSettingBool, _q_addDefaultSetting, getSettingBool,
    _q_getSetting.
  rewrite Hk, boolToString_legal. simpl.
  by rewrite String.eqb_refl.
Qed.

(** C2: the current value and the default of an item should never be the
    reserved marker nor a null string.  The first call of
    [addDefaultSettingBool] already leaves an item whose current value is
    the null string, the very value [_q_setSetting] refuses to store. *)
Theorem fresh_item_value_is_null :
  let w := run ∅ [AddDefaultSettingBool "k" true] in
  m_items (registry w) =
    [{| keyType := BOOL; key := "k"; value := QNull;
        defaultValue := QStr "<TRUE>" |}]
  /\ Forall (fun item => isNull (value item) = true) (m_items (registry w))
  /\ snd (setSettingString "k" QNull (registry w)) = registry w
  /\ fst (setSettingString "k" QNull (registry w)) = Throw IllegalValueException.
Proof.
  vm_compute. split; [done|]. split; [|done].
  by repeat constructor.
Qed.

(** ** A set that returned *)

(** After a set that returned, the lookup ends on the same item, now with
    a current value equal to the one written. *)
Lemma set_returns_item this k v kt this' item :
  firstItem (m_items this) k = Some item ->
  _q_setSetting k v kt this = (Return tt, this') ->
  exists item',
    firstItem (m_items this') k = Some item'
    /\ keyType item' = kt
    /\ keyType item' = keyType item
    /\ defaultValue item' = defaultValue item
    /\ qeqb (value item') v = true
    /\ m_default this' = m_default this.
Proof.
  intros Hf H.
  destruct (set_returns _ _ _ _ _ H) as (Hk & Hv & _).
  rewrite set_legal, Hf in H by done.
  destruct (bool_decide (keyType item = kt)) eqn:Ht; [|done].
  apply bool_decide_eq_true_1 in Ht.
  destruct (qneb (value item) v) eqn:Hne.
  - injection H as <-. simpl.
    exists (setItemValue item v).
    rewrite firstItem_assignFirst, String.eqb_refl, Hf. simpl.
    by rewrite qeqb_refl.
  - injection H as <-. exists item.
    apply qneb_false in Hne. done.
Qed.

Lemma collect_shown items dflt sub :
  Forall (fun v => exists item, item ∈ items /\ v = shown dflt item)
    (collect items dflt sub).
Proof.
  induction items as [|item rest IH]; simpl; [constructor|].
  assert (Forall (fun v => exists it, it ∈ item :: rest /\ v = shown dflt it)
            (collect rest dflt sub)) as Hrest.
  { eapply Forall_impl; [exact IH|].
    intros v (it & Hin & ->). exists it. split; [by right|done]. }
  destruct (String.eqb (key item) sub); [|done].
  constructor; [|done]. exists item. split; [left|done].
Qed.

Lemma scanFrom_shown items dflt k i n :
  Forall (fun v => exists item, item ∈ items /\ v = shown dflt item)
    (scanFrom items dflt k i n).
Proof.
  revert i. induction n as [|n IH]; intros i; simpl; [constructor|].
  apply Forall_app. split; [apply collect_shown|apply IH].
Qed.

(** ** Registering a key again *)

Lemma replaceDefault_spec items k d kt :
  match replaceDefault items k d kt with
  | Some items' =>
      exists i item,
        items !! i = Some item /\ keyType item = kt /\ key item = k
        /\ items' = <[i := setItemDefault item d]> items
  | None =>
      forall item, item ∈ items -> ~ (keyType item = kt /\ key item = k)
  end.
Proof.
  induction items as [|it rest IH]; simpl.
  - intros item Hin. by apply elem_of_nil in Hin.
  - destruct (bool_decide (keyType it = kt)) eqn:Ht;
      [destruct (String.eqb (key it) k) eqn:Hk|]; simpl.
    + apply bool_decide_eq_true_1 in Ht. apply String.eqb_eq in Hk.
      by exists 0, it.
    + destruct (replaceDefault rest k d kt) as [rest'|]; simpl.
      * destruct IH as (i & item & Hi & Ht' & Hk' & ->).
        by exists (S i), item.
      * intros item [->|Hin]%elem_of_cons; [|by apply IH].
        apply String.eqb_neq in Hk. intros [_ ?]. done.
    + destruct (replaceDefault rest k d kt) as [rest'|]; simpl.
      * destruct IH as (i & item & Hi & Ht' & Hk' & ->).
        by exists (S i), item.
      * intros item [->|Hin]%elem_of_cons; [|by apply IH].
        apply bool_decide_eq_false_1 in Ht. intros [? _]. done.
Qed.

Lemma withoutDefault_insert (items : list SettingsItem) (i : nat) item d :
  items !! i = Some item ->
  withoutDefault <$> <[i := setItemDefault item d]> items = withoutDefault <$> items.
Proof.
  intros Hi. rewrite list_fmap_insert. apply list_insert_id.
  by rewrite list_lookup_fmap, Hi.
Qed.

Lemma firstItem_withoutDefault items items' k :
  withoutDefault <$> items' = withoutDefault <$> items ->
  withoutDefault <$> firstItem items' k = withoutDefault <$> firstItem items k.
Proof.
  revert items'. induction items as [|it rest IH]; intros [|it' rest'] H;
    simpl in *; try done.
  injection H as Hkt Hkey Hval Htl. rewrite Hkey.
  destruct (String.eqb (key it) k); simpl; [|by apply IH].
  unfold withoutDefault. congruence.
Qed.

Lemma stringToBool_qeqb (a b : QString) :
  qeqb a b = true -> stringToBool a = stringToBool b.
Proof. unfold stringToBool, qeqb. intros ->%String.eqb_eq. done. Qed.

(** ** Writing a value *)

Lemma numeral_pretty_N_go (x : N) (s : string) :
  numeral s = true -> numeral (pretty_N_go x s) = true.
Proof.
  revert s. induction (N.lt_wf_0 x) as [x _ IH]; intros s Hs.
  assert (x = 0 \/ 0 < x)%N as [->|Hpos] by lia.
  - by rewrite pretty_N_go_0.
  - rewrite pretty_N_go_step by done. apply IH.
    { by apply N.div_lt. }
    simpl. rewrite Hs, andb_true_r.
    unfold pretty_N_char. by repeat case_match.
Qed.

Lemma numeral_pretty_Z (z : Z) : numeral (pretty z) = true.
Proof.
  assert (forall p : positive, numeral (pretty p) = true) as Hpos.
  { intros p. unfold pretty, pretty_positive, pretty, pretty_N.
    case_decide; [done|]. by apply numeral_pretty_N_go. }
  destruct z as [|p|p]; [done|apply Hpos|].
  unfold pretty, pretty_Z. simpl. apply Hpos.
Qed.

Lemma intToString_legal (z : Z) : illegalValue (intToString z) = false.
Proof.
  unfold illegalValue, intToString, qeqb. simpl.
  apply String.eqb_neq. intros Heq.
  pose proof (numeral_pretty_Z z) as Hnum. by rewrite Heq in Hnum.
Qed.

(** C4, as stated, fails on a value the setter refuses: ["k"] is
    registered as a string and holds ["x"]; writing the reserved marker,
    which differs from ["x"], throws [IllegalValueException], emits
    nothing and stores nothing. *)
Lemma set_marker_differs_but_is_refused :
  let this :=
    snd ((addDefaultSettingString "k" (QStr "a")
          >> setSettingString "k" (QStr "x")) newSettings) in
  let v := QStr UNDEFINED in
  registeredAs this "k" STRING
  /\ currentValue this "k" = Some (QStr "x")
  /\ qneb (QStr "x") v = true
  /\ setSettingString "k" v this = (Throw IllegalValueException, this)
  /\ emitted (snd (setSettingString "k" v this)) <> S (emitted this)
  /\ currentValue (snd (setSettingString "k" v this)) "k" <> Some v.
Proof.
  intros this v. split.
  { by eexists. }
  by vm_compute.
Qed.

(** C4, amended: on a key registered under the type of the setter, a set
    of a legal value (not null, not the reserved marker) that differs
    from the current value stores it and emits [changed()] exactly once;
    a set of a value equal to the current one emits nothing and changes
    nothing; an illegal value is refused with [IllegalValueException],
    with no signal and no change.  What [setSettingBool] and
    [setSettingInt] write is always legal. *)
Theorem set_notifies_exactly_on_change (this : AbstractSettings) (k : string)
    (v : QString) (kt : KeyType) (item : SettingsItem) :
  illegalKey k = false ->
  firstItem (m_items this) k = Some item ->
  keyType item = kt ->
  let stored :=
    {| m_items := assignFirst (m_items this) k v;
       m_default := m_default this;
       emitted := S (emitted this) |} in
  _q_setSetting k v kt this =
    (if illegalValue v then (Throw IllegalValueException, this)
     else if qneb (value item) v then (Return tt, stored)
     else (Return tt, this))
  /\ currentValue stored k = Some v
  /\ (forall k', k' <> k ->
        firstItem (m_items stored) k' = firstItem (m_items this) k')
  /\ (forall b, setSettingBool k b this = _q_setSetting k (boolToString b) BOOL this
                /\ illegalValue (boolToString b) = false)
  /\ (forall z, setSettingInt k z this = _q_setSetting k (intToString z) INTEGER this
                /\ illegalValue (intToString z) = false)
  /\ setSettingString k v this = _q_setSetting k v STRING this.
Proof.
  intros Hk Hf Ht stored. split; [|split; [|split]].
  - destruct (illegalValue v) eqn:Hv.
    + unfold _q_setSetting. by rewrite Hk, Hv.
    + rewrite set_legal, Hf by done.
      by rewrite bool_decide_eq_true_2.
  - unfold currentValue, stored. simpl.
    by rewrite firstItem_assignFirst, String.eqb_refl, Hf.
  - intros k' Hne. unfold stored. simpl. rewrite firstItem_assignFirst.
    destruct (String.eqb k k') eqn:E; [|done].
    apply String.eqb_eq in E. congruence.
  - split; [|split]; [| |done].
    + intros b. split; [done|apply boolToString_legal].
    + intros z. split; [done|apply intToString_legal].
Qed.

Lemma set_notifies_exactly_on_change_witness :
  let this := snd (addDefaultSettingInt "port" 80 newSettings) in
  let item :=
    {| keyType := INTEGER; key := "port"; value := QNull;
       defaultValue := QStr "80" |} in
  (illegalKey "port" = false
   /\ firstItem (m_items this) "port" = Some item
   /\ keyType item = INTEGER)
  /\ emitted (snd (setSettingInt "port" 8080 this)) = 1
  /\ currentValue (snd (setSettingInt "port" 8080 this)) "port" = Some (QStr "8080")
  /\ (let this' := snd (setSettingInt "port" 8080 this) in
      setSettingInt "port" 8080 this' = (Return tt, this')).
Proof.
  intros this item.
  split; [by repeat split|].
  destruct (set_notifies_exactly_on_change this "port" (intToString 8080)
              INTEGER item eq_refl eq_refl eq_refl)
    as (Hcall & Hcur & _ & _ & Hint & _).
  destruct (Hint 8080%Z) as [Heq _].
  rewrite Heq, Hcall. by vm_compute.
Defined.

(** ** String lists *)

Lemma collect_filter items dflt sub :
  collect items dflt sub
  = shown dflt <$> filter (fun item => key item = sub) items.
Proof.
  induction items as [|item rest IH]; simpl; [done|].
  rewrite filter_cons.
  destruct (String.eqb (key item) sub) eqn:E.
  - apply String.eqb_eq in E. rewrite decide_True by done.
    simpl. by rewrite IH.
  - apply String.eqb_neq in E. by rewrite decide_False.
Qed.

Lemma scanFrom_concat items dflt k i n :
  scanFrom items dflt k i n
  = concat ((fun j => shown dflt <$>
                        filter (fun item => key item = subkey k j) items)
            <$> seq i n).
Proof.
  revert i. induction n as [|n IH]; intros i; simpl; [done|].
  by rewrite collect_filter, IH.
Qed.

Lemma collect_firstItem_None items dflt sub :
  firstItem items sub = None -> collect items dflt sub = [].
Proof.
  induction items as [|item rest IH]; simpl; [done|].
  destruct (String.eqb (key item) sub); [done|exact IH].
Qed.

(** With no key registered twice the inner loop finds one item at most. *)
Lemma collect_firstItem_Some items dflt sub item :
  NoDup (key <$> items) ->
  firstItem items sub = Some item ->
  collect items dflt sub = [shown dflt item].
Proof.
  induction items as [|it rest IH]; simpl; [done|].
  intros [Hnotin Hnodup]%NoDup_cons.
  destruct (String.eqb (key it) sub) eqn:E.
  - intros [= ->]. f_equal. apply collect_firstItem_None.
    apply String.eqb_eq in E. subst sub.
    destruct (firstItem rest (key item)) as [it'|] eqn:Hf; [|done].
    destruct Hnotin. apply list_elem_of_fmap. exists it'.
    split; [symmetry; by eapply firstItem_key | by eapply firstItem_elem].
  - by apply IH.
Qed.

Lemma scanFrom_nothing items dflt k i n :
  (forall j, i <= j < i + n -> firstItem items (subkey k j) = None) ->
  scanFrom items dflt k i n = [].
Proof.
  revert i. induction n as [|n IH]; intros i Hnone; simpl; [done|].
  rewrite collect_firstItem_None by (apply Hnone; lia).
  apply IH. intros j Hj. apply Hnone. lia.
Qed.

Lemma scanFrom_consecutive items dflt k i n :
  NoDup (key <$> items) ->
  (forall j j', i <= j < j' -> j' < i + n ->
     is_Some (firstItem items (subkey k j')) ->
     is_Some (firstItem items (subkey k j))) ->
  scanFrom items dflt k i n = consecutiveFrom items dflt k i n.
Proof.
  intros Hnodup. revert i. induction n as [|n IH]; intros i Hgap; simpl; [done|].
  destruct (firstItem items (subkey k i)) as [item|] eqn:Hf.
  - rewrite (collect_firstItem_Some _ _ _ item) by done. simpl. f_equal.
    apply IH. intros j j' Hj Hj'. apply Hgap; lia.
  - rewrite collect_firstItem_None by done. simpl.
    apply scanFrom_nothing. intros j Hj.
    destruct (firstItem items (subkey k j)) as [it|] eqn:Hfj; [|done].
    assert (is_Some (firstItem items (subkey k i))) as [? Hsome].
    { apply (Hgap i j); [lia|lia|by rewrite Hfj]. }
    congruence.
Qed.

(** C3, as stated, fails: with ["k0"], ["k2"] and one more key registered
    there is no ["k1"], yet the list read under ["k"] holds the value of
    ["k2"] after the value of ["k0"]; stopping at the first missing index
    would give the value of ["k0"] alone. *)
Lemma list_scan_passes_gap :
  let this :=
    snd ((addDefaultSettingString "k0" (QStr "a")
          >> addDefaultSettingString "k2" (QStr "c")
          >> addDefaultSettingString "z" (QStr "-")
          >> setSettingString "k0" (QStr "x")
          >> setSettingString "k2" (QStr "y")) newSettings) in
  firstItem (m_items this) (subkey "k" 1) = None
  /\ getSettingStringList this "k" = [QStr "x"; QStr "y"]
  /\ consecutiveValues this "k" = [QStr "x"]
  /\ getSettingStringList this "k" <> consecutiveValues this "k".
Proof. by vm_compute. Qed.

(** C3, amended: for a key [k] without place marker,
    [getSettingStringList(k)] visits every index [i] below
    the number of registered items, in increasing order, and for each
    appends the shown value (the default in the preview, else the current
    value) of every item whose key is [k+i], in registration order; an
    index without item adds nothing and does not end the scan.  When no
    key is registered twice and the sub-keys below that bound are
    registered without gap, this is the list of [k+0], [k+1], ... up to
    the first missing index. *)
Theorem list_scan_visits_every_index (this : AbstractSettings) (k : string) :
  noPlaceMarker k = true ->
  getSettingStringList this k
  = concat ((fun i => shown (m_default this) <$>
                        filter (fun item => key item = subkey k i) (m_items this))
            <$> seq 0 (length (m_items this)))
  /\ (NoDup (key <$> m_items this) ->
      (forall i j, i < j < length (m_items this) ->
         is_Some (firstItem (m_items this) (subkey k j)) ->
         is_Some (firstItem (m_items this) (subkey k i))) ->
      getSettingStringList this k = consecutiveValues this k).
Proof.
  intros _. split.
  - apply scanFrom_concat.
  - intros Hnodup Hgap. apply scanFrom_consecutive; [done|].
    intros j j' Hj Hj'. apply Hgap. lia.
Qed.

Lemma list_scan_visits_every_index_witness :
  let this :=
    beginRestoreDefault
      (snd (addDefaultSettingStringList "paths" [QStr "a"; QStr "b"; QStr "c"]
              newSettings)) in
  (noPlaceMarker "paths" = true /\ NoDup (key <$> m_items this))
  /\ getSettingStringList this "paths" = consecutiveValues this "paths"
  /\ consecutiveValues this "paths" = [QStr "a"; QStr "b"; QStr "c"].
Proof.
  intros this.
  assert (NoDup (key <$> m_items this)) as Hnodup.
  { apply (bool_decide_unpack _). by vm_compute. }
  split; [by split|]. split; [|reflexivity].
  destruct (list_scan_visits_every_index this "paths" eq_refl)
    as [_ Hconsecutive].
  apply Hconsecutive; [exact Hnodup|].
  intros [|[|i]] j Hij _; [by eexists..|simpl in Hij; lia].
Defined.

(** *** Sub-keys *)

Lemma subkey_inj (k : string) (i j : nat) : subkey k i = subkey k j -> i = j.
Proof.
  unfold subkey. intros H%String.app_inj. by apply (inj pretty) in H.
Qed.

Lemma length_pretty_N_go (x : N) (s : string) :
  String.length s <= String.length (pretty_N_go x s).
Proof.
  revert s. induction (N.lt_wf_0 x) as [x _ IH]; intros s.
  assert (x = 0 \/ 0 < x)%N as [->|Hpos] by lia.
  - by rewrite pretty_N_go_0.
  - rewrite pretty_N_go_step by done.
    etrans; [|apply IH; by apply N.div_lt]. simpl. lia.
Qed.

Lemma pretty_nat_nonempty (i : nat) : pretty i <> "".
Proof.
  unfold pretty, pretty_nat, pretty, pretty_N.
  case_decide; [done|].
  assert (0 < N.of_nat i)%N as Hpos by lia.
  rewrite pretty_N_go_step by done.
  intros Heq.
  pose proof (length_pretty_N_go (N.of_nat i `div` 10)
    (String (pretty_N_char (N.of_nat i `mod` 10)) "")) as Hlen.
  rewrite Heq in Hlen. simpl in Hlen. lia.
Qed.

Lemma numeral_pretty_nat (i : nat) : numeral (pretty i) = true.
Proof.
  unfold pretty, pretty_nat, pretty, pretty_N.
  case_decide; [done|]. by apply numeral_pretty_N_go.
Qed.

Lemma app_nonempty (s t : string) : t <> "" -> s +:+ t <> "".
Proof. intros Ht. by destruct s. Qed.

Lemma endsNumeral_app (s t : string) :
  t <> "" -> endsNumeral (s +:+ t) = endsNumeral t.
Proof.
  intros Ht. induction s as [|c s IH]; [done|].
  change (String c s +:+ t) with (String c (s +:+ t)).
  pose proof (app_nonempty s t Ht) as Hne.
  simpl. destruct (s +:+ t); [done|exact IH].
Qed.

Lemma numeral_endsNumeral (t : string) :
  t <> "" -> numeral t = true -> endsNumeral t = true.
Proof.
  induction t as [|c t IH]; [done|].
  intros _ [Hc Ht]%andb_true_iff. simpl.
  destruct t as [|c' t']; [done|]. by apply IH.
Qed.

(** A string that ends on a numeral is not the reserved marker. *)
Lemma numeral_suffix_not_marker (s t : string) :
  t <> "" -> numeral t = true -> s +:+ t <> UNDEFINED.
Proof.
  intros Hne Hnum Heq.
  pose proof (endsNumeral_app s t Hne) as Hends.
  rewrite Heq, (numeral_endsNumeral t Hne Hnum) in Hends. done.
Qed.

Lemma subkey_legal (k : string) (i : nat) : illegalKey (subkey k i) = false.
Proof.
  unfold illegalKey, subkey. apply orb_false_iff. split.
  - apply String.eqb_neq, app_nonempty, pretty_nat_nonempty.
  - apply String.eqb_neq, numeral_suffix_not_marker;
      [apply pretty_nat_nonempty | apply numeral_pretty_nat].
Qed.

Create HintDb legal.
#[local] Hint Resolve boolToString_legal intToString_legal subkey_legal : legal.

(** *** What a set leaves alone *)

Lemma set_outcome this k v kt :
  snd (_q_setSetting k v kt this) = this
  \/ snd (_q_setSetting k v kt this)
     = {| m_items := assignFirst (m_items this) k v;
          m_default := m_default this;
          emitted := S (emitted this) |}.
Proof.
  set_guards k v Hk Hv; [by left..|].
  rewrite set_legal by done.
  destruct (firstItem (m_items this) k) as [item|]; [|by left].
  destruct (bool_decide (keyType item = kt)); [|by left].
  destruct (qneb (value item) v); [by right | by left].
Qed.

Lemma set_frame this k v kt k0 :
  k0 <> k ->
  firstItem (m_items (snd (_q_setSetting k v kt this))) k0
  = firstItem (m_items this) k0.
Proof.
  intros Hne. destruct (set_outcome this k v kt) as [-> | ->]; [done|].
  simpl. rewrite firstItem_assignFirst.
  destruct (String.eqb k k0) eqn:E; [|done].
  apply String.eqb_eq in E. congruence.
Qed.

Lemma set_schema this k v kt k0 :
  schemaOf <$> firstItem (m_items (snd (_q_setSetting k v kt this))) k0
  = schemaOf <$> firstItem (m_items this) k0.
Proof.
  destruct (set_outcome this k v kt) as [-> | ->]; [done|].
  simpl. rewrite firstItem_assignFirst.
  destruct (String.eqb k k0) eqn:E; [|done].
  apply String.eqb_eq in E. subst k0.
  by destruct (firstItem (m_items this) k).
Qed.

Lemma registeredAs_schema this this' k kt :
  schemaOf <$> firstItem (m_items this') k = schemaOf <$> firstItem (m_items this) k ->
  registeredAs this k kt -> registeredAs this' k kt.
Proof.
  intros Hs (item & Hf & Ht). rewrite Hf in Hs.
  destruct (firstItem (m_items this') k) as [item'|] eqn:Hf'; [|done].
  injection Hs as Hkt _ _. exists item'. split; [done|congruence].
Qed.

Lemma setValuesFrom_frame k s vs this k0 :
  (forall j, j < length vs -> subkey k (s + j) <> k0) ->
  firstItem (m_items (snd (setValuesFrom k s vs this))) k0
  = firstItem (m_items this) k0.
Proof.
  revert s this. induction vs as [|v vs IH]; intros s this Hne; simpl; [done|].
  unfold andThen, setSettingString.
  pose proof (set_frame this (subkey k s) v STRING k0) as Hfr.
  destruct (_q_setSetting (subkey k s) v STRING this) as [[[]|e] this1];
    simpl in *.
  - rewrite IH, Hfr; [done| |].
    + intros Heq. apply (Hne 0); [lia|]. by rewrite Nat.add_0_r.
    + intros j Hj. replace (S s + j) with (s + S j) by lia. apply Hne. lia.
  - apply Hfr. intros Heq. apply (Hne 0); [lia|]. by rewrite Nat.add_0_r.
Qed.

(** A list set that returned has written every value of the list. *)
Lemma setValuesFrom_returns k s vs this this' :
  setValuesFrom k s vs this = (Return tt, this') ->
  forall j v, vs !! j = Some v ->
    exists v', currentValue this' (subkey k (s + j)) = Some v'
               /\ qeqb v' v = true.
Proof.
  revert s this. induction vs as [|v0 vs IH]; intros s this Hcall j v Hj;
    [done|].
  simpl in Hcall. unfold andThen, setSettingString in Hcall.
  destruct (_q_setSetting (subkey k s) v0 STRING this) as [[[]|e] this1] eqn:Hset;
    [|done].
  destruct j as [|j]; simpl in Hj.
  - injection Hj as ->. rewrite Nat.add_0_r.
    destruct (set_returns _ _ _ _ _ Hset) as (_ & _ & it0 & Hf0 & _).
    destruct (set_returns_item _ _ _ _ _ _ Hf0 Hset)
      as (it1 & Hf1 & _ & _ & _ & Hv1 & _).
    exists (value it1). split; [|done].
    unfold currentValue.
    replace this' with (snd (setValuesFrom k (S s) vs this1))
      by (by rewrite Hcall).
    rewrite setValuesFrom_frame, Hf1; [done|].
    intros j _ Heq%subkey_inj. lia.
  - replace (s + S j) with (S s + j) by lia. by eapply IH.
Qed.

(** The list set up to the first index without sub-key. *)
Lemma setValuesFrom_missing k s vs i this :
  i < length vs ->
  firstItem (m_items this) (subkey k (s + i)) = None ->
  (forall j v, j <= i -> vs !! j = Some v -> illegalValue v = false) ->
  (forall j, j < i -> registeredAs this (subkey k (s + j)) STRING) ->
  exists this',
    setValuesFrom k s vs this = (Throw MissingKeyException, this')
    /\ setValuesFrom k s (take i vs) this = (Return tt, this').
Proof.
  revert s vs this. induction i as [|i IH]; intros s vs this Hlen Hnone Hlegal Hreg.
  - destruct vs as [|v vs]; simpl in Hlen; [lia|].
    exists this. rewrite Nat.add_0_r in Hnone. simpl.
    unfold andThen, setSettingString.
    rewrite set_legal, Hnone; [done|auto with legal|].
    by apply (Hlegal 0); [lia|].
  - destruct vs as [|v vs]; simpl in Hlen; [lia|].
    simpl. unfold andThen, setSettingString.
    destruct (Hreg 0 ltac:(lia)) as (item & Hf & Ht).
    rewrite Nat.add_0_r in Hf.
    pose proof (fun k0 => set_schema this (subkey k s) v STRING k0) as Hschema.
    assert (illegalValue v = false) as Hv by (by apply (Hlegal 0); [lia|]).
    assert (fst (_q_setSetting (subkey k s) v STRING this) = Return tt) as Hret.
    { rewrite set_legal, Hf; [|auto with legal|done].
      rewrite bool_decide_eq_true_2 by done.
      by destruct (qneb (value item) v). }
    destruct (_q_setSetting (subkey k s) v STRING this) as [r this1].
    simpl in Hret, Hschema. subst r.
    apply IH.
    + lia.
    + specialize (Hschema (subkey k (S s + i))).
      replace (s + S i) with (S s + i) in Hnone by lia.
      rewrite Hnone in Hschema.
      by destruct (firstItem (m_items this1) (subkey k (S s + i))).
    + intros j w Hj Hw. apply (Hlegal (S j)); [lia|done].
    + intros j Hj. eapply registeredAs_schema; [apply Hschema|].
      replace (S s + j) with (s + S j) by lia. apply Hreg. lia.
Qed.

(** C10, as stated, fails when an earlier element is refused: ["k0"] is
    registered, ["k1"] is not, and the list starts with the reserved
    marker.  Index 1 has no sub-key, yet the call throws
    [IllegalValueException] at index 0, and ["k0"], registered and below
    index 1, has not been written. *)
Lemma list_set_fails_earlier_otherwise :
  let this := snd (addDefaultSettingString "k0" (QStr "a") newSettings) in
  let vs := [QStr UNDEFINED; QStr "b"] in
  firstItem (m_items this) (subkey "k" 1) = None
  /\ registeredAs this (subkey "k" 0) STRING
  /\ fst (setSettingStringList "k" vs this) = Throw IllegalValueException
  /\ fst (setSettingStringList "k" vs this) <> Throw MissingKeyException
  /\ currentValue (snd (setSettingStringList "k" vs this)) (subkey "k" 0)
     <> Some (QStr UNDEFINED).
Proof.
  intros this vs. split; [done|]. split.
  { by eexists. }
  by vm_compute.
Qed.

(** A set that throws leaves the registry as it found it. *)
Lemma set_throws_unchanged k v kt this e :
  fst (_q_setSetting k v kt this) = Throw e ->
  snd (_q_setSetting k v kt this) = this.
Proof.
  set_guards k v Hk Hv; [done..|].
  rewrite set_legal by done.
  destruct (firstItem (m_items this) k) as [item|]; [|done].
  destruct (bool_decide (keyType item = kt)); [|done].
  by destruct (qneb (value item) v).
Qed.

(** The list write up to the first element whose set throws. *)
Lemma setValuesFrom_stops k s vs i this this' v e :
  setValuesFrom k s (take i vs) this = (Return tt, this') ->
  vs !! i = Some v ->
  fst (setSettingString (subkey k (s + i)) v this') = Throw e ->
  setValuesFrom k s vs this = (Throw e, this').
Proof.
  revert s vs this. induction i as [|i IH]; intros s vs this Hprefix Hv Hthrow.
  - destruct vs as [|v0 vs]; [done|]. simpl in Hv. injection Hv as ->.
    rewrite take_0 in Hprefix. simpl in Hprefix. injection Hprefix as <-.
    rewrite Nat.add_0_r in Hthrow. simpl. unfold andThen.
    unfold setSettingString in *.
    pose proof (set_throws_unchanged _ _ _ _ _ Hthrow) as Hsame.
    destruct (_q_setSetting (subkey k s) v STRING this) as [r this1].
    simpl in *. by subst.
  - destruct vs as [|v0 vs]; [done|]. simpl in Hv, Hprefix. simpl.
    unfold andThen in *.
    destruct (setSettingString (subkey k s) v0 this) as [[[]|e0] this1];
      [|done].
    apply (IH (S s)); [done|done|].
    by replace (S s + i) with (s + S i) by lia.
Qed.

(** C10, amended: for a key without place marker,
    [setSettingStringList(key, values)] stops at the first element whose
    set throws and lets that exception out: [IllegalValueException] for a
    null or reserved value, else [MissingKeyException] when the sub-key
    has no item, else [WrongTypeException] when its first item is not a
    string.  The registry is then left as the call on the elements before
    that one alone leaves it: every [key+j] with [j < i] holds
    [values[j]], nothing is rolled back.  In particular, when [i] is the
    first index without registered sub-key (every earlier sub-key is
    registered as a string and the values up to [i] are legal), the
    exception is [MissingKeyException]. *)
Theorem list_set_keeps_partial_writes (this : AbstractSettings) (k : string)
    (vs : list QString) (i : nat) :
  noPlaceMarker k = true ->
  i < length vs ->
  (forall this' v e,
     setSettingStringList k (take i vs) this = (Return tt, this') ->
     vs !! i = Some v ->
     fst (setSettingString (subkey k i) v this') = Throw e ->
     setSettingStringList k vs this = (Throw e, this')
     /\ (forall j w, j < i -> vs !! j = Some w ->
           exists w', currentValue this' (subkey k j) = Some w'
                      /\ qeqb w' w = true))
  /\ (forall this' v,
        fst (setSettingString (subkey k i) v this')
        = if illegalValue v then Throw IllegalValueException
          else match firstItem (m_items this') (subkey k i) with
               | None => Throw MissingKeyException
               | Some item =>
                   if bool_decide (keyType item = STRING)
                   then Return tt else Throw WrongTypeException
               end)
  /\ (firstItem (m_items this) (subkey k i) = None ->
      (forall j v, j <= i -> vs !! j = Some v -> illegalValue v = false) ->
      (forall j, j < i -> registeredAs this (subkey k j) STRING) ->
      exists this',
        setSettingStringList k vs this = (Throw MissingKeyException, this')
        /\ setSettingStringList k (take i vs) this = (Return tt, this')
        /\ (forall j v, j < i -> vs !! j = Some v ->
              exists v', currentValue this' (subkey k j) = Some v'
                         /\ qeqb v' v = true)).
Proof.
  intros _ Hlen. split; [|split].
  - intros this' v e Hprefix Hv Hthrow. split.
    + by apply (setValuesFrom_stops k 0 vs i this this' v e).
    + intros j w Hj Hw.
      apply (setValuesFrom_returns k 0 (take i vs) this this' Hprefix j w).
      by rewrite lookup_take_lt.
  - intros this' v. unfold setSettingString.
    destruct (illegalValue v) eqn:Hv.
    + unfold _q_setSetting. by rewrite subkey_legal, Hv.
    + rewrite set_legal; [|auto with legal|done].
      destruct (firstItem (m_items this') (subkey k i)) as [item|]; [|done].
      destruct (bool_decide (keyType item = STRING)); [|done].
      by destruct (qneb (value item) v).
  - intros Hnone Hlegal Hreg.
    destruct (setValuesFrom_missing k 0 vs i this) as (this' & Hthrow & Hprefix);
      try done.
    exists this'. split; [done|]. split; [done|].
    intros j v Hj Hv.
    apply (setValuesFrom_returns k 0 (take i vs) this this' Hprefix j v).
    by rewrite lookup_take_lt.
Qed.

Lemma list_set_keeps_partial_writes_witness :
  let this :=
    snd (addDefaultSettingStringList "k" [QStr "a"; QStr "b"] newSettings) in
  let vs := [QStr "x"; QStr "y"; QStr "z"] in
  (noPlaceMarker "k" = true
   /\ 2 < length vs
   /\ firstItem (m_items this) (subkey "k" 2) = None)
  /\ exists this',
       setSettingStringList "k" vs this = (Throw MissingKeyException, this')
       /\ currentValue this' (subkey "k" 0) = Some (QStr "x")
       /\ currentValue this' (subkey "k" 1) = Some (QStr "y")
       /\ emitted this' = 2.
Proof.
  intros this vs.
  assert (2 < length vs) as Hlen by (simpl; lia).
  assert (firstItem (m_items this) (subkey "k" 2) = None) as Hnone
    by reflexivity.
  assert (forall j v, j <= 2 -> vs !! j = Some v -> illegalValue v = false)
    as Hlegal.
  { intros [|[|[|j]]] v Hj Hv; simpl in Hv; try lia;
      injection Hv as <-; reflexivity. }
  assert (forall j, j < 2 -> registeredAs this (subkey "k" j) STRING) as Hreg.
  { intros [|[|j]] Hj; try lia; by eexists. }
  split; [done|].
  destruct (list_set_keeps_partial_writes this "k" vs 2 eq_refl Hlen)
    as (_ & _ & Hmissing).
  destruct (Hmissing Hnone Hlegal Hreg) as (this' & Hthrow & _ & _).
  exists this'. split; [done|].
  assert (this' = snd (setSettingStringList "k" vs this)) as ->
    by (by rewrite Hthrow).
  by vm_compute.
Defined.

(** ** Illegal keys *)






(** ** What every call keeps true of the items *)

Lemma itemOk_newItem k d kt :
  illegalKey k = false -> illegalValue d = false -> itemOk (newItem k d kt).
Proof. by intros Hk Hd. Qed.

Lemma illegalValue_not_marker v :
  illegalValue v = false -> qeqb v (QStr UNDEFINED) = false.
Proof. unfold illegalValue. by intros [_ ?]%orb_false_iff. Qed.

Lemma add_keeps_ok k d kt this :
  Forall itemOk (m_items this) ->
  Forall itemOk (m_items (snd (_q_addDefaultSetting k d kt this))).
Proof.
  intros Hok. unfold _q_addDefaultSetting.
  destruct (illegalKey k) eqn:Hk; [done|].
  destruct (illegalValue d) eqn:Hd; [done|].
  pose proof (replaceDefault_spec (m_items this) k d kt) as Hspec.
  destruct (replaceDefault (m_items this) k d kt) as [items'|]; simpl.
  - destruct Hspec as (i & item & Hi & _ & _ & ->).
    apply Forall_insert; [done|].
    destruct (proj1 (Forall_lookup _ _) Hok i item Hi) as (H1 & _ & H3).
    by repeat split.
  - apply Forall_app. split; [done|].
    apply Forall_singleton. by apply itemOk_newItem.
Qed.

Lemma assignFirst_keeps_ok items k v :
  qeqb v (QStr UNDEFINED) = false ->
  Forall itemOk items -> Forall itemOk (assignFirst items k v).
Proof.
  intros Hv. induction 1 as [|item rest Hitem Hrest IH]; simpl; [done|].
  destruct (String.eqb (key item) k); constructor; try done.
  destruct Hitem as (H1 & H2 & _). by repeat split.
Qed.

Lemma set_keeps_ok k v kt this :
  Forall itemOk (m_items this) ->
  Forall itemOk (m_items (snd (_q_setSetting k v kt this))).
Proof.
  intros Hok. set_guards k v Hk Hv; [done..|].
  destruct (set_outcome this k v kt) as [-> | ->]; [done|].
  simpl. apply assignFirst_keeps_ok; [|done].
  by apply illegalValue_not_marker.
Qed.

Lemma andThen_keeps_ok (c1 c2 : Method unit) this :
  (forall that, Forall itemOk (m_items that) ->
                Forall itemOk (m_items (snd (c1 that)))) ->
  (forall that, Forall itemOk (m_items that) ->
                Forall itemOk (m_items (snd (c2 that)))) ->
  Forall itemOk (m_items this) ->
  Forall itemOk (m_items (snd ((c1 >> c2) this))).
Proof.
  intros H1 H2 Hok. unfold andThen.
  specialize (H1 this Hok).
  destruct (c1 this) as [[[]|e] this1]; simpl in *; [by apply H2|done].
Qed.

Lemma addDefaultsFrom_keeps_ok k i ds this :
  Forall itemOk (m_items this) ->
  Forall itemOk (m_items (snd (addDefaultsFrom k i ds this))).
Proof.
  revert i this. induction ds as [|d ds IH]; intros i this Hok; simpl; [done|].
  apply andThen_keeps_ok; [|auto|done].
  intros that. apply add_keeps_ok.
Qed.

Lemma setValuesFrom_keeps_ok k i vs this :
  Forall itemOk (m_items this) ->
  Forall itemOk (m_items (snd (setValuesFrom k i vs this))).
Proof.
  revert i this. induction vs as [|v vs IH]; intros i this Hok; simpl; [done|].
  apply andThen_keeps_ok; [|auto|done].
  intros that. apply set_keeps_ok.
Qed.

Lemma readItem_ok stored item :
  itemOk item -> itemOk (readItem stored item).
Proof.
  intros (H1 & H2 & _). unfold readItem. repeat split; simpl; try done.
  destruct (qneb _ _) eqn:Hne.
  - unfold qneb in Hne. by apply negb_true_iff in Hne.
  - by apply illegalValue_not_marker.
Qed.

Lemma call_keeps_ok w c :
  Forall itemOk (m_items (registry w)) ->
  Forall itemOk (m_items (registry (call w c))).
Proof.
  intros Hok. destruct c; simpl; try done.
  - by apply add_keeps_ok.
  - by apply add_keeps_ok.
  - by apply add_keeps_ok.
  - by apply addDefaultsFrom_keeps_ok.
  - by apply set_keeps_ok.
  - by apply set_keeps_ok.
  - by apply set_keeps_ok.
  - by apply setValuesFrom_keeps_ok.
  - apply Forall_fmap. eapply Forall_impl; [done|].
    intros item. apply readItem_ok.
Qed.

(** In every state the calls can reach, the keys and the defaults are
    legal and no current value is the reserved marker. *)
Lemma run_keeps_ok stored calls :
  Forall itemOk (m_items (registry (run stored calls))).
Proof.
  unfold run. induction calls as [|c calls IH] using rev_ind; simpl.
  - constructor.
  - rewrite foldl_snoc. by apply call_keeps_ok.
Qed.

(** ** Saving *)

Lemma contains_true (stored : QSettings) name :
  contains stored name = true <-> is_Some (stored !! name).
Proof. unfold contains. apply bool_decide_eq_true. Qed.

Lemma contains_false (stored : QSettings) name :
  contains stored name = false <-> stored !! name = None.
Proof.
  unfold contains. rewrite bool_decide_eq_false. symmetry. apply eq_None_not_Some.
Qed.

Lemma writeItem_other (stored : QSettings) item name :
  uniqueRegisterKey item <> name ->
  writeItem stored item !! name = stored !! name.
Proof.
  intros Hne. unfold writeItem, setValue.
  destruct (_ || _); [by rewrite lookup_insert_ne|done].
Qed.

Lemma writeItems_other (stored : QSettings) items name :
  name ∉ uniqueRegisterKey <$> items ->
  foldl writeItem stored items !! name = stored !! name.
Proof.
  revert stored. induction items as [|item rest IH]; intros stored Hnotin;
    simpl; [done|].
  rewrite fmap_cons in Hnotin. apply not_elem_of_cons in Hnotin as [Hne Hrest].
  rewrite IH by done. by apply writeItem_other.
Qed.

Lemma writeItem_same (stored : QSettings) item :
  writeItem stored item !! uniqueRegisterKey item
  = if qneb (value item) (defaultValue item)
       || contains stored (uniqueRegisterKey item)
    then Some (value item)
    else None.
Proof.
  unfold writeItem, setValue.
  destruct (qneb (value item) (defaultValue item)); simpl.
  - by rewrite lookup_insert_eq.
  - destruct (contains stored (uniqueRegisterKey item)) eqn:Hc.
    + by rewrite lookup_insert_eq.
    + by apply contains_false.
Qed.

(** With pairwise different names, what the settings hold under the name
    of an item once [writeSettings] has run. *)
Lemma writeSettings_lookup (stored : QSettings) items i item :
  NoDup (uniqueRegisterKey <$> items) ->
  items !! i = Some item ->
  foldl writeItem stored (take i items) !! uniqueRegisterKey item
  = stored !! uniqueRegisterKey item
  /\ foldl writeItem stored items !! uniqueRegisterKey item
     = if qneb (value item) (defaultValue item)
          || contains stored (uniqueRegisterKey item)
       then Some (value item)
       else None.
Proof.
  intros Hnodup Hi.
  rewrite <- (take_drop_middle items i item Hi) in Hnodup.
  rewrite fmap_app, fmap_cons in Hnodup.
  apply NoDup_app in Hnodup as (_ & Hdisj & [Hnotin _]%NoDup_cons).
  assert (uniqueRegisterKey item ∉ uniqueRegisterKey <$> take i items) as Hpre.
  { intros Hin. apply (Hdisj _ Hin). left. }
  assert (foldl writeItem stored (take i items) !! uniqueRegisterKey item
          = stored !! uniqueRegisterKey item) as Hbefore
    by (by apply writeItems_other).
  split; [done|].
  rewrite <- (take_drop_middle items i item Hi) at 1.
  rewrite foldl_app. simpl.
  rewrite writeItems_other by done.
  rewrite writeItem_same. unfold contains. by rewrite Hbefore.
Qed.

(** C7, as stated, fails when two items share a name: the boolean ["a"]
    holds true against a default of false, the string ["a_bool"] holds
    its default and nothing is stored.  Saving writes the boolean under
    ["a_bool"]; when the loop reaches the string the name is there, so the
    string is written too, although its value equals its default and the
    settings did not hold its name before the call. *)
Lemma save_writes_default_under_shared_name :
  let w :=
    run ∅ [AddDefaultSettingBool "a" false;
           AddDefaultSettingString "a_bool" (QStr "y");
           ReadSettings;
           SetSettingBool "a" true] in
  let e := {| keyType := STRING; key := "a_bool"; value := QStr "y";
              defaultValue := QStr "y" |} in
  m_items (registry w) !! 1 = Some e
  /\ qneb (value e) (defaultValue e) = false
  /\ settings w !! uniqueRegisterKey e = None
  /\ (foldl writeItem (settings w) (take 1 (m_items (registry w))))
       !! uniqueRegisterKey e = Some (QStr "<TRUE>")
  /\ writeSettings (settings w) (registry w) !! uniqueRegisterKey e
     = Some (value e).
Proof. by vm_compute. Qed.

(** C7, amended: [writeSettings] visits the items in order; when it
    reaches an item it stores the current value under the name of the
    item if that value differs from the default or the settings hold the
    name by then, and it leaves the settings alone if the value equals
    the default and the name is absent.  For an item whose name no other
    item shares, the settings hold the name when the item is reached
    exactly if they held it before the call, and afterwards the name maps
    to the current value in the first case and is still absent in the
    second.  A name of no item keeps what the settings held for it. *)
Theorem save_writes_changed_or_stored (stored : QSettings)
    (this : AbstractSettings) (i : nat) (item : SettingsItem) :
  m_items this !! i = Some item ->
  let reached := foldl writeItem stored (take i (m_items this)) in
  let name := uniqueRegisterKey item in
  writeSettings stored this
  = foldl writeItem (writeItem reached item) (drop (S i) (m_items this))
  /\ (qneb (value item) (defaultValue item) = true \/ is_Some (reached !! name) ->
      writeItem reached item = <[name := value item]> reached)
  /\ (qneb (value item) (defaultValue item) = false -> reached !! name = None ->
      writeItem reached item = reached)
  /\ (name ∉ uniqueRegisterKey <$> take i (m_items this) ->
      name ∉ uniqueRegisterKey <$> drop (S i) (m_items this) ->
      reached !! name = stored !! name
      /\ writeSettings stored this !! name
         = if qneb (value item) (defaultValue item) || contains stored name
           then Some (value item)
           else None)
  /\ (forall other, other ∉ uniqueRegisterKey <$> m_items this ->
        writeSettings stored this !! other = stored !! other).
Proof.
  intros Hi reached name.
  assert (writeSettings stored this
          = foldl writeItem (writeItem reached item) (drop (S i) (m_items this)))
    as Hsplit.
  { unfold writeSettings.
    rewrite <- (take_drop_middle (m_items this) i item Hi) at 1.
    by rewrite foldl_app. }
  split; [done|]. split; [|split; [|split]].
  - intros Hcond. unfold writeItem, setValue. fold name.
    destruct Hcond as [-> | Hsome]; [done|].
    apply contains_true in Hsome. rewrite Hsome. by rewrite orb_true_r.
  - intros Hsame Habsent. unfold writeItem. fold name.
    apply contains_false in Habsent. by rewrite Hsame, Habsent.
  - intros Hbefore Hafter.
    assert (reached !! name = stored !! name) as Hreached
      by (by apply writeItems_other).
    split; [done|].
    rewrite Hsplit, writeItems_other by done.
    unfold name. rewrite writeItem_same. fold name.
    unfold contains. by rewrite Hreached.
  - intros other Hother. by apply writeItems_other.
Qed.

Lemma save_writes_changed_or_stored_witness :
  let this :=
    snd ((addDefaultSettingBool "sound" true
          >> addDefaultSettingInt "port" 80
          >> addDefaultSettingString "dir" (QStr "/tmp")) newSettings) in
  let this := snd (setSettingInt "port" 8080 (readSettings ∅ this)) in
  let item :=
    {| keyType := INTEGER; key := "port"; value := QStr "8080";
       defaultValue := QStr "80" |} in
  (m_items this !! 1 = Some item
   /\ (uniqueRegisterKey item ∉ uniqueRegisterKey <$> take 1 (m_items this))
   /\ (uniqueRegisterKey item ∉ uniqueRegisterKey <$> drop 2 (m_items this)))
  /\ writeSettings ∅ this !! "port_int" = Some (QStr "8080")
  /\ writeSettings ∅ this = {[ "port_int" := QStr "8080" ]}.
Proof.
  intros this0 this item.
  assert (m_items this !! 1 = Some item) as Hi by reflexivity.
  assert (uniqueRegisterKey item ∉ uniqueRegisterKey <$> take 1 (m_items this))
    as Hbefore.
  { apply (bool_decide_unpack _). by vm_compute. }
  assert (uniqueRegisterKey item ∉ uniqueRegisterKey <$> drop 2 (m_items this))
    as Hafter.
  { apply (bool_decide_unpack _). by vm_compute. }
  split; [by repeat split|].
  destruct (save_writes_changed_or_stored ∅ this 1 item Hi)
    as (_ & _ & _ & Hnames & _).
  destruct (Hnames Hbefore Hafter) as [_ Hsaved].
  split; [exact Hsaved|].
  apply map_eq. intros name. by vm_compute.
Defined.

(** ** Save, restart, load *)

Lemma replaceDefault_absent items k d kt :
  (forall item, item ∈ items -> ~ (keyType item = kt /\ key item = k)) ->
  replaceDefault items k d kt = None.
Proof.
  intros Habsent.
  pose proof (replaceDefault_spec items k d kt) as Hspec.
  destruct (replaceDefault items k d kt) as [items'|]; [|done].
  destruct Hspec as (i & item & Hi & Ht & Hk & _).
  destruct (Habsent item); [|done].
  by eapply list_elem_of_lookup_2.
Qed.

Lemma uniqueRegisterKey_newItem item :
  uniqueRegisterKey (newItem (key item) (defaultValue item) (keyType item))
  = uniqueRegisterKey item.
Proof. done. Qed.

Lemma uniqueRegisterKey_same_pair a b :
  keyType a = keyType b -> key a = key b ->
  uniqueRegisterKey a = uniqueRegisterKey b.
Proof. unfold uniqueRegisterKey. by intros -> ->. Qed.

(** Registering the schema of a registry whose names are pairwise
    different appends one item per line, each with a null current
    value. *)
Lemma registerSchema_fresh (items acc : list SettingsItem) dflt n :
  Forall itemOk items ->
  NoDup (uniqueRegisterKey <$> (acc ++ items)%list) ->
  registerSchema (schemaOf <$> items)
    {| m_items := acc; m_default := dflt; emitted := n |}
  = (Return tt,
     {| m_items :=
          (acc ++ ((fun item => newItem (key item) (defaultValue item) (keyType item))
                   <$> items))%list;
        m_default := dflt; emitted := n |}).
Proof.
  revert acc. induction items as [|item rest IH]; intros acc Hok Hnodup; simpl.
  - by rewrite app_nil_r.
  - apply Forall_cons in Hok as [(Hk & Hd & _) Hrest].
    unfold andThen, _q_addDefaultSetting. rewrite Hk, Hd. simpl.
    rewrite replaceDefault_absent.
    + rewrite IH; [by rewrite <- app_assoc|done|].
      rewrite <- app_assoc. simpl.
      by rewrite !fmap_app, !fmap_cons, uniqueRegisterKey_newItem in *.
    + intros it Hin [Ht Hkey].
      rewrite fmap_app, fmap_cons in Hnodup.
      apply NoDup_app in Hnodup as (_ & Hdisj & _).
      apply (Hdisj (uniqueRegisterKey it)).
      * apply list_elem_of_fmap. by exists it.
      * rewrite (uniqueRegisterKey_same_pair it item) by done. left.
Qed.

(** C8, as stated, fails when two items share a name in the settings:
    the boolean ["a"] and the string ["a_bool"] are both stored under
    ["a_bool"], the string written last.  The boolean held true; after
    save, restart and load it holds the text of the string and reads as
    false. *)
Lemma round_trip_confuses_shared_name :
  let w :=
    run ∅ [AddDefaultSettingBool "a" false;
           AddDefaultSettingString "a_bool" (QStr "y");
           SetSettingBool "a" true;
           SetSettingString "a_bool" (QStr "x")] in
  currentValue (registry w) "a" = Some (QStr "<TRUE>")
  /\ getSettingBool (registry w) "a" = Return true
  /\ currentValue (roundTrip w) "a" = Some (QStr "x")
  /\ getSettingBool (roundTrip w) "a" = Return false.
Proof. by vm_compute. Qed.

(** C8, amended: in every state the calls can reach in which no two
    items share a name in the settings, save, a fresh registry with the
    same schema, and load give back every item with its key, type and
    default and with a current value equal to the original one.  A value
    that differs from its default, or whose name the settings held
    already, comes back from the settings; a value equal to its default
    whose name the settings did not hold is not stored and comes back
    from the default. *)
Theorem round_trip_restores_values (stored : QSettings) (calls : list Call) :
  let w := run stored calls in
  NoDup (uniqueRegisterKey <$> m_items (registry w)) ->
  Forall2
    (fun original restored =>
       schemaOf restored = schemaOf original
       /\ qeqb (value restored) (value original) = true
       /\ (if qneb (value original) (defaultValue original)
              || contains (settings w) (uniqueRegisterKey original)
           then writeSettings (settings w) (registry w)
                  !! uniqueRegisterKey original = Some (value original)
                /\ value restored = value original
           else writeSettings (settings w) (registry w)
                  !! uniqueRegisterKey original = None
                /\ value restored = defaultValue original))
    (m_items (registry w)) (m_items (roundTrip w)).
Proof.
  intros w Hnodup.
  pose proof (run_keeps_ok stored calls) as Hok. fold w in Hok.
  unfold roundTrip, newSettings.
  rewrite (registerSchema_fresh (m_items (registry w)) [] false 0) by done.
  simpl. rewrite <- list_fmap_compose.
  apply Forall2_fmap_r, Forall_Forall2_diag, Forall_lookup.
  intros i item Hi.
  destruct (writeSettings_lookup (settings w) _ i item Hnodup Hi) as [_ Hsaved].
  destruct (proj1 (Forall_lookup _ _) Hok i item Hi) as (_ & Hd & Hv).
  fold (writeSettings (settings w) (registry w)) in Hsaved.
  unfold compose, readItem, valueOr. simpl.
  rewrite uniqueRegisterKey_newItem, Hsaved.
  destruct (qneb (value item) (defaultValue item)
            || contains (settings w) (uniqueRegisterKey item)) eqn:Hcond; simpl.
  - unfold qneb. rewrite Hv. simpl. by rewrite qeqb_refl.
  - apply orb_false_iff in Hcond as [Hsame%qneb_false _].
    by rewrite qeqb_sym.
Qed.

Lemma round_trip_restores_values_witness :
  let stored : QSettings := {[ "dir" := QStr "/home" ]} in
  let calls :=
    [AddDefaultSettingBool "sound" true;
     AddDefaultSettingInt "port" 80;
     AddDefaultSettingString "dir" (QStr "/tmp");
     ReadSettings;
     SetSettingInt "port" 8080;
     SetSettingString "dir" (QStr "/tmp")] in
  let w := run stored calls in
  NoDup (uniqueRegisterKey <$> m_items (registry w))
  /\ Forall2 (fun original restored =>
               qeqb (value restored) (value original) = true)
       (m_items (registry w)) (m_items (roundTrip w))
  /\ (value <$> m_items (roundTrip w))
     = [QStr "<TRUE>"; QStr "8080"; QStr "/tmp"].
Proof.
  intros stored calls w.
  assert (NoDup (uniqueRegisterKey <$> m_items (registry w))) as Hnodup.
  { apply (bool_decide_unpack _). by vm_compute. }
  split; [exact Hnodup|]. split; [|by vm_compute].
  eapply Forall2_impl; [exact (round_trip_restores_values stored calls Hnodup)|].
  intros original restored (_ & Hvalue & _). exact Hvalue.
Defined.

(** * Further properties of the registry *)

(** ** Lookups after a registration *)

Lemma firstItem_None items k :
  firstItem items k = None <-> k ∉ key <$> items.
Proof.
  induction items as [|item rest IH]; simpl.
  - split; [intros _; apply not_elem_of_nil|done].
  - rewrite not_elem_of_cons.
    destruct (String.eqb (key item) k) eqn:E.
    + apply String.eqb_eq in E. split; [done|]. intros [Hne _]. congruence.
    + apply String.eqb_neq in E. rewrite IH. split; [|tauto].
      intros Hrest. split; [congruence|done].
Qed.

Lemma firstItem_app items more k :
  firstItem (items ++ more) k =
    match firstItem items k with
    | Some item => Some item
    | None => firstItem more k
    end.
Proof.
  induction items as [|item rest IH]; simpl; [done|].
  by destruct (String.eqb (key item) k).
Qed.

(** Replacing the default of the first item of a type and key moves no
    lookup: a key still ends on the same item, which carries the new
    default exactly if it is the one of that type and key. *)
Lemma firstItem_replaceDefault items k d kt items' k0 :
  replaceDefault items k d kt = Some items' ->
  firstItem items' k0 =
    (fun item => if bool_decide (keyType item = kt) && String.eqb (key item) k
                 then setItemDefault item d else item)
    <$> firstItem items k0.
Proof.
  revert items'. induction items as [|x rest IH]; intros items'; simpl; [done|].
  destruct (bool_decide (keyType x = kt) && String.eqb (key x) k) eqn:Hmatch.
  - intros [= <-]. simpl.
    destruct (String.eqb (key x) k0) eqn:E; simpl; [by rewrite Hmatch|].
    destruct (firstItem rest k0) as [y|] eqn:Hy; simpl; [|done].
    apply firstItem_key in Hy.
    apply andb_true_iff in Hmatch as [_ Hx%String.eqb_eq].
    apply String.eqb_neq in E.
    assert (String.eqb (key y) k = false) as ->
      by (apply String.eqb_neq; congruence).
    by rewrite andb_false_r.
  - destruct (replaceDefault rest k d kt) as [rest'|] eqn:Hrest; [|done].
    intros [= <-]. simpl.
    destruct (String.eqb (key x) k0); simpl; [by rewrite Hmatch|].
    by apply IH.
Qed.

(** What a registration with a legal key and a legal default does to the
    lookups. *)
Lemma add_lookup this k d kt k0 :
  illegalKey k = false ->
  illegalValue d = false ->
  let this' := snd (_q_addDefaultSetting k d kt this) in
  fst (_q_addDefaultSetting k d kt this) = Return tt
  /\ m_default this' = m_default this
  /\ emitted this' = emitted this
  /\ firstItem (m_items this') k0 =
       match firstItem (m_items this) k0 with
       | Some item =>
           Some (if bool_decide (keyType item = kt) && String.eqb (key item) k
                 then setItemDefault item d else item)
       | None => if String.eqb k k0 then Some (newItem k d kt) else None
       end.
Proof.
  intros Hk Hd. unfold _q_addDefaultSetting. rewrite Hk, Hd.
  pose proof (replaceDefault_spec (m_items this) k d kt) as Hspec.
  destruct (replaceDefault (m_items this) k d kt) as [items'|] eqn:Hrep; simpl.
  - do 3 (split; [done|]).
    rewrite (firstItem_replaceDefault _ _ _ _ _ k0 Hrep).
    destruct (firstItem (m_items this) k0) as [item|] eqn:Hf; simpl; [done|].
    destruct (String.eqb k k0) eqn:E; [|done].
    apply String.eqb_eq in E. subst k0.
    destruct Hspec as (i & item & Hi & _ & Hkey & _).
    apply firstItem_None in Hf. destruct Hf.
    apply list_elem_of_fmap. exists item. split; [done|].
    by eapply list_elem_of_lookup_2.
  - do 3 (split; [done|]).
    rewrite firstItem_app. simpl.
    destruct (firstItem (m_items this) k0) as [item|] eqn:Hf; [|done].
    f_equal.
    destruct (bool_decide (keyType item = kt) && String.eqb (key item) k) eqn:Hm;
      [|done].
    apply andb_true_iff in Hm as [Ht%bool_decide_eq_true_1 Hkey%String.eqb_eq].
    destruct (Hspec item); [by eapply firstItem_elem|done].
Qed.

(** ** Errors of the accessors *)

(** X1: A read or a write of a key nobody registered throws
    [MissingKeyException], for every type, and leaves the registry as it
    was; a write throws it only once the value has passed its own test. *)
Theorem missing_key_is_reported (this : AbstractSettings) (k : string) :
  illegalKey k = false ->
  k ∉ key <$> m_items this ->
  (forall kt, _q_getSetting this k kt = Throw MissingKeyException)
  /\ getSettingBool this k = Throw MissingKeyException
  /\ getSettingInt this k = Throw MissingKeyException
  /\ getSettingString this k = Throw MissingKeyException
  /\ (forall v kt,
        _q_setSetting k v kt this =
          (if illegalValue v then Throw IllegalValueException
           else Throw MissingKeyException, this))
  /\ (forall b, setSettingBool k b this = (Throw MissingKeyException, this))
  /\ (forall z, setSettingInt k z this = (Throw MissingKeyException, this)).
Proof.
  intros Hk Hnone%firstItem_None.
  assert (forall kt, _q_getSetting this k kt = Throw MissingKeyException) as Hget.
  { intros kt. unfold _q_getSetting. by rewrite Hk, getLoop_firstItem, Hnone. }
  assert (forall v kt,
            _q_setSetting k v kt this =
              (if illegalValue v then Throw IllegalValueException
               else Throw MissingKeyException, this)) as Hset.
  { intros v kt. destruct (illegalValue v) eqn:Hv.
    - unfold _q_setSetting. by rewrite Hk, Hv.
    - by rewrite set_legal, Hnone. }
  unfold getSettingBool, getSettingInt, getSettingString,
    setSettingBool, setSettingInt.
  rewrite !Hget. simpl. do 5 (split; [done|]). split.
  - intros b. by rewrite Hset, boolToString_legal.
  - intros z. by rewrite Hset, intToString_legal.
Qed.

Lemma missing_key_is_reported_witness :
  let this := snd (addDefaultSettingBool "sound" true newSettings) in
  (illegalKey "volume" = false /\ "volume" ∉ key <$> m_items this)
  /\ getSettingInt this "volume" = Throw MissingKeyException
  /\ setSettingInt "volume" 3 this = (Throw MissingKeyException, this).
Proof.
  intros this.
  assert ("volume" ∉ key <$> m_items this) as Hnone.
  { apply firstItem_None. reflexivity. }
  split; [by split|].
  destruct (missing_key_is_reported this "volume" eq_refl Hnone)
    as (_ & _ & Hint & _ & _ & _ & Hset).
  split; [exact Hint | exact (Hset 3%Z)].
Defined.

(** X2: A key is looked up by its characters alone and then held to its
    type: while the first item registered under a key has another type,
    a read or a write throws [WrongTypeException] and changes nothing.
    Registering the key under the wanted type does not help: the call
    returns, but the lookup still ends on the older item, so the accessor
    of the new type keeps throwing and the old one reads what it read. *)
Theorem wrong_type_is_reported (this : AbstractSettings) (k : string)
    (kt : KeyType) (item : SettingsItem) :
  illegalKey k = false ->
  firstItem (m_items this) k = Some item ->
  keyType item <> kt ->
  _q_getSetting this k kt = Throw WrongTypeException
  /\ (forall v,
        _q_setSetting k v kt this =
          (if illegalValue v then Throw IllegalValueException
           else Throw WrongTypeException, this))
  /\ (forall d,
        illegalValue d = false ->
        let this' := snd (_q_addDefaultSetting k d kt this) in
        fst (_q_addDefaultSetting k d kt this) = Return tt
        /\ _q_getSetting this' k kt = Throw WrongTypeException
        /\ _q_getSetting this' k (keyType item)
           = _q_getSetting this k (keyType item)).
Proof.
  intros Hk Hf Hne.
  assert (bool_decide (keyType item = kt) = false) as Hdec
    by (by apply bool_decide_eq_false_2).
  split; [|split].
  - unfold _q_getSetting. by rewrite Hk, getLoop_firstItem, Hf, Hdec.
  - intros v. destruct (illegalValue v) eqn:Hv.
    + unfold _q_setSetting. by rewrite Hk, Hv.
    + by rewrite set_legal, Hf, Hdec.
  - intros d Hd this'.
    destruct (add_lookup this k d kt k Hk Hd) as (Hret & Hflag & _ & Hlook).
    fold this' in Hflag, Hlook.
    rewrite Hf, Hdec in Hlook. simpl in Hlook.
    split; [done|]. unfold _q_getSetting.
    rewrite Hk, !getLoop_firstItem, Hlook, Hf, Hdec, Hflag. done.
Qed.

Lemma wrong_type_is_reported_witness :
  let this := snd (addDefaultSettingBool "x" true newSettings) in
  let item := {| keyType := BOOL; key := "x"; value := QNull;
                 defaultValue := QStr "<TRUE>" |} in
  (illegalKey "x" = false
   /\ firstItem (m_items this) "x" = Some item
   /\ keyType item <> INTEGER)
  /\ getSettingInt this "x" = Throw WrongTypeException
  /\ getSettingInt (snd (addDefaultSettingInt "x" 5 this)) "x"
     = Throw WrongTypeException
  /\ length (m_items (snd (addDefaultSettingInt "x" 5 this))) = 2.
Proof.
  intros this item.
  assert (keyType item <> INTEGER) as Hne by done.
  split; [by repeat split|].
  destruct (wrong_type_is_reported this "x" INTEGER item eq_refl eq_refl Hne)
    as (Hget & _ & Hadd).
  destruct (Hadd (intToString 5) eq_refl) as (_ & Hstill & _).
  unfold getSettingInt, addDefaultSettingInt. rewrite Hget, Hstill.
  by repeat split.
Defined.

(** ** Registration *)

(** X3: A registration tests the key, then the default, then registers: an
    empty or reserved key throws [IllegalKeyException] whatever the
    default is, a null or reserved default under a legal key throws
    [IllegalValueException], and both leave the registry untouched.
    Otherwise the call returns, with the items it found and at most one
    more, and the pair of type and key is registered afterwards.  The
    defaults of booleans and integers are always legal. *)
Theorem registration_checks_key_then_default (this : AbstractSettings)
    (k : string) (d : QString) (kt : KeyType) :
  let outcome := _q_addDefaultSetting k d kt this in
  (illegalKey k = true -> outcome = (Throw IllegalKeyException, this))
  /\ (illegalKey k = false -> illegalValue d = true ->
      outcome = (Throw IllegalValueException, this))
  /\ (illegalKey k = false -> illegalValue d = false ->
      fst outcome = Return tt
      /\ (kt, k) ∈ pairOf <$> m_items (snd outcome)
      /\ (length (m_items (snd outcome)) = length (m_items this)
          \/ length (m_items (snd outcome)) = S (length (m_items this))))
  /\ (forall b, illegalKey k = false ->
        fst (addDefaultSettingBool k b this) = Return tt)
  /\ (forall z, illegalKey k = false ->
        fst (addDefaultSettingInt k z this) = Return tt).
Proof.
  intros outcome. unfold outcome.
  split; [|split; [|split; [|split]]].
  - intros Hk. unfold _q_addDefaultSetting. by rewrite Hk.
  - intros Hk Hd. unfold _q_addDefaultSetting. by rewrite Hk, Hd.
  - intros Hk Hd. unfold _q_addDefaultSetting. rewrite Hk, Hd.
    pose proof (replaceDefault_spec (m_items this) k d kt) as Hspec.
    destruct (replaceDefault (m_items this) k d kt) as [items'|]; simpl.
    + destruct Hspec as (i & item & Hi & Ht & Hkey & ->).
      split; [done|]. split; [|left; apply length_insert].
      apply list_elem_of_fmap. exists (setItemDefault item d).
      split; [unfold pairOf; simpl; congruence|].
      apply list_elem_of_lookup. exists i.
      apply list_lookup_insert_eq. by eapply lookup_lt_Some.
    + split; [done|]. split.
      * apply list_elem_of_fmap. exists (newItem k d kt).
        split; [done|]. apply elem_of_app. right. left.
      * right. rewrite length_app. simpl. lia.
  - intros b Hk. unfold addDefaultSettingBool.
    by destruct (add_lookup this k (boolToString b) BOOL k Hk
                   (boolToString_legal b)) as [? _].
  - intros z Hk. unfold addDefaultSettingInt.
    by destruct (add_lookup this k (intToString z) INTEGER k Hk
                   (intToString_legal z)) as [? _].
Qed.

Lemma registration_checks_key_then_default_witness :
  let this := snd (addDefaultSettingBool "sound" true newSettings) in
  _q_addDefaultSetting "" QNull STRING this = (Throw IllegalKeyException, this)
  /\ _q_addDefaultSetting "dir" QNull STRING this
     = (Throw IllegalValueException, this)
  /\ fst (addDefaultSettingInt "sound" 3 this) = Return tt.
Proof.
  intros this.
  destruct (registration_checks_key_then_default this "" QNull STRING)
    as (Hkey & _).
  destruct (registration_checks_key_then_default this "dir" QNull STRING)
    as (_ & Hvalue & _).
  destruct (registration_checks_key_then_default this "sound" QNull INTEGER)
    as (_ & _ & _ & _ & Hint).
  split; [exact (Hkey eq_refl)|].
  split; [exact (Hvalue eq_refl eq_refl)|].
  exact (Hint 3%Z eq_refl).
Defined.

(** X4: A default that was registered shows: when the key is new, or its
    first item has the registered type, the registration returns and
    afterwards the preview of the defaults reads the default under the
    key, and so does a read outside the preview once [readSettings] has
    found nothing stored under the name of the item. *)
Theorem registered_default_shows (this : AbstractSettings) (k : string)
    (d : QString) (kt : KeyType) :
  illegalKey k = false ->
  illegalValue d = false ->
  (k ∉ key <$> m_items this \/ registeredAs this k kt) ->
  let this' := snd (_q_addDefaultSetting k d kt this) in
  fst (_q_addDefaultSetting k d kt this) = Return tt
  /\ storedDefault this' k = Some d
  /\ _q_getSetting (beginRestoreDefault this') k kt = Return d
  /\ (forall stored : QSettings,
        stored !! uniqueRegisterKey (newItem k d kt) = None ->
        _q_getSetting (endRestoreDefault (readSettings stored this')) k kt
        = Return d).
Proof.
  intros Hk Hd Hcase this'.
  destruct (add_lookup this k d kt k Hk Hd) as (Hret & _ & _ & Hlook).
  fold this' in Hlook.
  assert (exists item, firstItem (m_items this') k = Some item
                       /\ keyType item = kt /\ key item = k
                       /\ defaultValue item = d) as (item & Hf & Ht & Hkey & Hdef).
  { destruct Hcase as [Hnew%firstItem_None | (it & Hit & Htype)].
    - rewrite Hnew, String.eqb_refl in Hlook. by eexists.
    - rewrite Hit in Hlook. pose proof (firstItem_key _ _ _ Hit) as Hkey.
      rewrite bool_decide_eq_true_2, Hkey, String.eqb_refl in Hlook by done.
      simpl in Hlook. by eexists. }
  split; [done|]. split; [unfold storedDefault; by rewrite Hf, <- Hdef|].
  split.
  - rewrite (get_registered _ k kt item) by done. simpl. by rewrite Hdef.
  - intros stored Hnone.
    assert (firstItem (readItem stored <$> m_items this') k
            = readItem stored <$> firstItem (m_items this') k) as Hread.
    { clear. induction (m_items this') as [|x rest IH]; simpl; [done|].
      by destruct (String.eqb (key x) k). }
    rewrite (get_registered _ k kt (readItem stored item)).
    + simpl. unfold readItem, valueOr.
      replace (uniqueRegisterKey item) with (uniqueRegisterKey (newItem k d kt))
        by (apply uniqueRegisterKey_same_pair; simpl; congruence).
      rewrite Hnone. simpl. by rewrite Hdef.
    + done.
    + simpl. by rewrite Hread, Hf.
    + done.
Qed.

Lemma registered_default_shows_witness :
  let this := snd (addDefaultSettingInt "port" 80 newSettings) in
  (illegalKey "sound" = false
   /\ illegalValue (boolToString true) = false
   /\ "sound" ∉ key <$> m_items this)
  /\ getSettingBool
       (beginRestoreDefault (snd (addDefaultSettingBool "sound" true this)))
       "sound" = Return true
  /\ getSettingBool
       (readSettings ∅ (snd (addDefaultSettingBool "sound" true this)))
       "sound" = Return true.
Proof.
  intros this.
  assert ("sound" ∉ key <$> m_items this) as Hnew.
  { apply firstItem_None. reflexivity. }
  split; [by repeat split|].
  destruct (registered_default_shows this "sound" (boolToString true) BOOL
              eq_refl eq_refl (or_introl Hnew))
    as (_ & _ & Hpreview & Hload).
  unfold getSettingBool, addDefaultSettingBool.
  rewrite Hpreview. split; [done|].
  specialize (Hload ∅ eq_refl).
  change (endRestoreDefault
            (readSettings ∅
               (snd (_q_addDefaultSetting "sound" (boolToString true) BOOL this))))
    with (readSettings ∅
            (snd (_q_addDefaultSetting "sound" (boolToString true) BOOL this)))
    in Hload.
  by rewrite Hload.
Defined.

(** ** Integers as text *)

Lemma rev_app_rev_app (s t u : string) :
  String.rev_app (String.rev_app s t) u = String.rev_app t (s +:+ u).
Proof.
  revert t u. induction s as [|a s IH]; intros t u; [done|].
  simpl. by rewrite IH.
Qed.

Lemma app_empty_r (s : string) : s +:+ "" = s.
Proof.
  induction s as [|a s IH]; [done|].
  change (String a s +:+ "") with (String a (s +:+ "")). by rewrite IH.
Qed.

Lemma rev_rev (s : string) : String.rev (String.rev s) = s.
Proof.
  unfold String.rev. rewrite rev_app_rev_app. simpl. apply app_empty_r.
Qed.

Lemma numeral_rev_app (s t : string) :
  numeral (String.rev_app s t) = numeral s && numeral t.
Proof.
  revert t. induction s as [|a s IH]; intros t; [done|].
  simpl. rewrite IH. simpl.
  destruct (numeralChar a), (numeral s), (numeral t); done.
Qed.

Lemma numeralChar_not_space (c : ascii) :
  numeralChar c = true -> is_space c = false.
Proof. by destruct c as [[] [] [] [] [] [] [] []]. Qed.

Lemma skip_space_numeral (s : string) :
  numeral s = true -> skip_space s = s.
Proof.
  destruct s as [|c s]; [done|]. simpl.
  intros [Hc _]%andb_true_iff. by rewrite numeralChar_not_space.
Qed.

Lemma trimmed_numeral (s : string) : numeral s = true -> trimmed s = s.
Proof.
  intros Hs. unfold trimmed. rewrite (skip_space_numeral s Hs).
  rewrite skip_space_numeral; [apply rev_rev|].
  unfold String.rev. by rewrite numeral_rev_app, Hs.
Qed.

Lemma digits_value_digit (m : N) (s : string) (acc : Z) :
  (m < 10)%N ->
  digits_value (String (pretty_N_char m) s) acc
  = digits_value s (10 * acc + Z.of_N m)%Z.
Proof.
  intros Hm.
  assert (m = 0 \/ m = 1 \/ m = 2 \/ m = 3 \/ m = 4 \/ m = 5 \/ m = 6
          \/ m = 7 \/ m = 8 \/ m = 9)%N as Hcases by lia.
  destruct Hcases as [->|[->|[->|[->|[->|[->|[->|[->|[->| ->]]]]]]]]];
    simpl; f_equal; lia.
Qed.

Lemma digits_value_pretty_N_go (x : N) (s : string) :
  digits_value (pretty_N_go x s) 0 = digits_value s (Z.of_N x).
Proof.
  revert s. induction (N.lt_wf_0 x) as [x _ IH]; intros s.
  assert (x = 0 \/ 0 < x)%N as [->|Hpos] by lia.
  - by rewrite pretty_N_go_0.
  - rewrite pretty_N_go_step by done.
    rewrite IH by (by apply N.div_lt).
    rewrite digits_value_digit by (by apply N.mod_lt).
    f_equal. rewrite (N.div_mod x 10) at 3 by done. lia.
Qed.

(** The text of a positive number starts with a digit. *)
Lemma pretty_N_go_head (x : N) (s : string) :
  (0 < x)%N ->
  exists m t, (m < 10)%N /\ pretty_N_go x s = String (pretty_N_char m) t.
Proof.
  revert s. induction (N.lt_wf_0 x) as [x _ IH]; intros s Hpos.
  rewrite pretty_N_go_step by done.
  destruct (N.eq_0_gt_0_cases (x `div` 10)) as [Hz|Hz].
  - rewrite Hz, pretty_N_go_0. exists (x `mod` 10)%N, s.
    split; [by apply N.mod_lt|done].
  - apply IH; [by apply N.div_lt|done].
Qed.

Lemma unsigned_value_pretty_positive (p : positive) :
  unsigned_value (pretty p) = Some (Zpos p)
  /\ exists m t, (m < 10)%N /\ pretty p = String (pretty_N_char m) t.
Proof.
  unfold pretty, pretty_positive, pretty, pretty_N.
  case_decide; [done|].
  destruct (pretty_N_go_head (Npos p) "") as (m & t & Hm & Heq); [lia|].
  split; [|by exists m, t].
  unfold unsigned_value.
  pose proof (digits_value_pretty_N_go (Npos p) "") as Hdigits.
  rewrite Heq in *. by rewrite Hdigits.
Qed.

(** [QString::number] followed by [QString::toInt] gives the integer
    back, for every value of an [int]. *)
Lemma stringToInt_intToString (z : Z) :
  in_int_range z = true -> stringToInt (intToString z) = z.
Proof.
  intros Hrange. unfold stringToInt, intToString. cbn [qdata].
  rewrite trimmed_numeral by apply numeral_pretty_Z.
  destruct z as [|p|p].
  - done.
  - change (pretty (Z.pos p)) with (pretty p).
    destruct (unsigned_value_pretty_positive p) as (Hvalue & m & t & Hm & Heq).
    rewrite Heq in *.
    assert (m = 0 \/ m = 1 \/ m = 2 \/ m = 3 \/ m = 4 \/ m = 5 \/ m = 6
            \/ m = 7 \/ m = 8 \/ m = 9)%N as Hcases by lia.
    destruct Hcases as [->|[->|[->|[->|[->|[->|[->|[->|[->| ->]]]]]]]]];
      cbv beta iota zeta delta [pretty_N_char] in *;
    by rewrite Hvalue, Hrange.
  - change (pretty (Z.neg p)) with (String "-" (pretty p)).
    destruct (unsigned_value_pretty_positive p) as (Hvalue & _).
    rewrite Hvalue. change (Z.opp <$> Some (Z.pos p)) with (Some (Z.neg p)).
    cbv beta iota. by rewrite Hrange.
Qed.

(** ** Reading back what was written *)

(** X5: Outside the preview a write that returned is read back by the
    accessor of the same type: the stored text equals the written one as
    [QString]s compare (it is the written one unless an empty string was
    written over a null one), and a boolean comes back as it was given.
    A write returns whenever the key is legal and registered under the
    type and the value is legal. *)
Theorem written_value_is_read (this : AbstractSettings) (k : string) :
  m_default this = false ->
  (forall v kt this',
     _q_setSetting k v kt this = (Return tt, this') ->
     exists v',
       _q_getSetting this' k kt = Return v'
       /\ qeqb v' v = true
       /\ (v' = v \/ (v' = QNull /\ v = QStr "")))
  /\ (forall b this',
        setSettingBool k b this = (Return tt, this') ->
        getSettingBool this' k = Return b)
  /\ (forall v this',
        setSettingString k v this = (Return tt, this') ->
        exists v', getSettingString this' k = Return v' /\ qeqb v' v = true)
  /\ (forall v kt,
        illegalKey k = false -> illegalValue v = false ->
        registeredAs this k kt ->
        fst (_q_setSetting k v kt this) = Return tt).
Proof.
  intros Hnormal.
  assert (forall v kt this',
            _q_setSetting k v kt this = (Return tt, this') ->
            exists v',
              _q_getSetting this' k kt = Return v'
              /\ qeqb v' v = true
              /\ (v' = v \/ (v' = QNull /\ v = QStr ""))) as Hgeneric.
  { intros v kt this' Hcall.
    destruct (set_returns _ _ _ _ _ Hcall) as (Hk & Hv & it0 & Hf0 & _).
    destruct (set_returns_item _ _ _ _ _ _ Hf0 Hcall)
      as (it1 & Hf1 & Ht1 & _ & _ & Hv1 & Hm1).
    exists (value it1). split; [|split; [done|]].
    - rewrite (get_registered _ k kt it1) by done.
      by rewrite Hm1, Hnormal.
    - apply qeqb_true in Hv1.
      destruct v as [|s]; [done|].
      destruct (value it1) as [|s1]; simpl in Hv1;
        [right; split; congruence | left; congruence]. }
  split; [exact Hgeneric|]. split; [|split].
  - intros b this' Hcall.
    destruct (Hgeneric _ _ _ Hcall) as (v' & Hget & Heq & _).
    unfold getSettingBool. rewrite Hget. simpl.
    by rewrite (stringToBool_qeqb _ _ Heq), stringToBool_boolToString.
  - intros v this' Hcall.
    destruct (Hgeneric _ _ _ Hcall) as (v' & Hget & Heq & _). by exists v'.
  - intros v kt Hk Hv (item & Hf & Ht).
    rewrite set_legal, Hf by done.
    rewrite bool_decide_eq_true_2 by done.
    by destruct (qneb (value item) v).
Qed.

Lemma written_value_is_read_witness :
  let this := snd (addDefaultSettingBool "sound" false newSettings) in
  m_default this = false
  /\ getSettingBool (snd (setSettingBool "sound" true this)) "sound"
     = Return true.
Proof.
  intros this. split; [reflexivity|].
  destruct (written_value_is_read this "sound" eq_refl) as (_ & Hbool & _).
  apply Hbool. by vm_compute.
Defined.

Lemma stringToInt_qeqb (a b : QString) :
  qeqb a b = true -> stringToInt a = stringToInt b.
Proof. intros Heq%qeqb_true. unfold stringToInt. by rewrite Heq. Qed.

(** X6: Outside the preview an integer written by [setSettingInt] is the
    integer [getSettingInt] returns, for every value of an [int]: the
    decimal text that is stored parses back to the number. *)
Theorem written_int_is_read (this this' : AbstractSettings) (k : string)
    (z : Z) :
  m_default this = false ->
  in_int_range z = true ->
  setSettingInt k z this = (Return tt, this') ->
  getSettingInt this' k = Return z.
Proof.
  intros Hnormal Hrange Hcall.
  destruct (set_returns _ _ _ _ _ Hcall) as (Hk & Hv & it0 & Hf0 & _).
  destruct (set_returns_item _ _ _ _ _ _ Hf0 Hcall)
    as (it1 & Hf1 & Ht1 & _ & _ & Hv1 & Hm1).
  unfold getSettingInt. rewrite (get_registered _ k INTEGER it1) by done.
  rewrite Hm1, Hnormal. simpl.
  by rewrite (stringToInt_qeqb _ _ Hv1), stringToInt_intToString.
Qed.

Lemma written_int_is_read_witness :
  let this := snd (addDefaultSettingInt "port" 80 newSettings) in
  let this' := snd (setSettingInt "port" (-2147483648) this) in
  (m_default this = false
   /\ in_int_range (-2147483648) = true
   /\ setSettingInt "port" (-2147483648) this = (Return tt, this'))
  /\ getSettingInt this' "port" = Return (-2147483648)%Z.
Proof.
  intros this this'.
  assert (setSettingInt "port" (-2147483648) this = (Return tt, this')) as Hcall
    by (by vm_compute).
  split; [by repeat split|].
  exact (written_int_is_read this this' "port" (-2147483648) eq_refl eq_refl Hcall).
Defined.

(** ** Loading *)

Lemma firstItem_readItem stored items k :
  firstItem (readItem stored <$> items) k
  = readItem stored <$> firstItem items k.
Proof.
  induction items as [|x rest IH]; simpl; [done|].
  by destruct (String.eqb (key x) k).
Qed.

Lemma readItem_schema stored a b :
  schemaOf a = schemaOf b -> readItem stored a = readItem stored b.
Proof.
  unfold schemaOf, readItem, setItemValue, uniqueRegisterKey.
  intros [= -> -> ->]. done.
Qed.

Lemma readItems_schema stored (items others : list SettingsItem) :
  schemaOf <$> others = schemaOf <$> items ->
  readItem stored <$> others = readItem stored <$> items.
Proof.
  revert others. induction items as [|x rest IH]; intros [|y others] H;
    simpl in *; try done.
  injection H as Hkt Hkey Hdef Hrest.
  f_equal; [|by apply IH].
  apply readItem_schema. unfold schemaOf. congruence.
Qed.

Lemma schemaOf_readItem stored item :
  schemaOf (readItem stored item) = schemaOf item.
Proof. done. Qed.

(** X7: [readSettings] gives every item the text stored under its name, or
    its default when nothing is stored or when the stored text is the
    reserved marker, and emits [changed()] once, whatever it found.  The
    values the items held before play no part: two registries with the
    same schema load the same items, so a value that was set and not
    saved is lost, and loading twice is loading once. *)
Theorem load_takes_store_or_default (stored : QSettings)
    (this : AbstractSettings) (k : string) (kt : KeyType)
    (item : SettingsItem) :
  illegalKey k = false ->
  firstItem (m_items this) k = Some item ->
  keyType item = kt ->
  let loaded := readSettings stored this in
  _q_getSetting (endRestoreDefault loaded) k kt
  = Return (match stored !! uniqueRegisterKey item with
            | Some v => if qeqb v (QStr UNDEFINED) then defaultValue item else v
            | None => defaultValue item
            end)
  /\ emitted loaded = S (emitted this)
  /\ m_default loaded = m_default this
  /\ schemaOf <$> m_items loaded = schemaOf <$> m_items this
  /\ m_items (readSettings stored loaded) = m_items loaded
  /\ (forall other,
        schemaOf <$> m_items other = schemaOf <$> m_items this ->
        m_items (readSettings stored other) = m_items loaded).
Proof.
  intros Hk Hf Ht loaded.
  assert (schemaOf <$> m_items loaded = schemaOf <$> m_items this) as Hschema.
  { unfold loaded. simpl. rewrite <- list_fmap_compose.
    apply list_fmap_ext. intros i x _. apply schemaOf_readItem. }
  split.
  - rewrite (get_registered _ k kt (readItem stored item)); try done.
    + simpl. unfold valueOr, qneb.
      destruct (stored !! uniqueRegisterKey item) as [v|]; simpl; [|done].
      by destruct (qeqb v (QStr UNDEFINED)).
    + simpl. by rewrite firstItem_readItem, Hf.
  - do 3 (split; [done|]). split.
    + simpl. by apply readItems_schema.
    + intros other Hother. simpl. by apply readItems_schema.
Qed.

Lemma load_takes_store_or_default_witness :
  let this :=
    snd ((addDefaultSettingInt "port" 80 >> setSettingInt "port" 8080)
           newSettings) in
  let item := {| keyType := INTEGER; key := "port"; value := QStr "8080";
                 defaultValue := QStr "80" |} in
  (illegalKey "port" = false
   /\ firstItem (m_items this) "port" = Some item
   /\ keyType item = INTEGER)
  /\ getSettingInt (readSettings ∅ this) "port" = Return 80%Z
  /\ getSettingInt (readSettings {[ "port_int" := QStr "21" ]} this) "port"
     = Return 21%Z
  /\ getSettingInt (readSettings {[ "port_int" := QStr UNDEFINED ]} this) "port"
     = Return 80%Z.
Proof.
  intros this item.
  split; [by repeat split|].
  destruct (load_takes_store_or_default ∅ this "port" INTEGER item
              eq_refl eq_refl eq_refl) as (Hempty & _).
  split; [|by vm_compute].
  unfold getSettingInt.
  change (readSettings ∅ this) with (endRestoreDefault (readSettings ∅ this)).
  by rewrite Hempty.
Defined.

(** ** Loading, then saving *)

Lemma value_readItem (stored : QSettings) item :
  value (readItem stored item)
  = match stored !! uniqueRegisterKey item with
    | Some v => if qeqb v (QStr UNDEFINED) then defaultValue item else v
    | None => defaultValue item
    end.
Proof.
  unfold readItem, valueOr, qneb. simpl.
  destruct (stored !! uniqueRegisterKey item) as [v|]; simpl; [|done].
  by destruct (qeqb v (QStr UNDEFINED)).
Qed.

Lemma writeItem_readItem_agrees (stored reached : QSettings) item name :
  (stored !! name = None
   \/ exists v, stored !! name = Some v /\ qeqb v (QStr UNDEFINED) = false) ->
  reached !! name = stored !! name ->
  writeItem reached (readItem stored item) !! name = stored !! name.
Proof.
  intros Hclean Hagree.
  destruct (decide (uniqueRegisterKey item = name)) as [Heq|Hne].
  - pose proof (writeItem_same reached (readItem stored item)) as Hsame.
    change (uniqueRegisterKey (readItem stored item))
      with (uniqueRegisterKey item) in Hsame.
    change (defaultValue (readItem stored item)) with (defaultValue item) in Hsame.
    rewrite value_readItem, Heq in Hsame. rewrite Hsame.
    unfold contains. rewrite Hagree.
    destruct Hclean as [Hnone | (v & Hsome & Hv)].
    + rewrite Hnone. unfold qneb. by rewrite qeqb_refl.
    + rewrite Hsome, Hv.
      rewrite bool_decide_eq_true_2 by (by eexists).
      by rewrite orb_true_r.
  - rewrite writeItem_other; [done|].
    by change (uniqueRegisterKey (readItem stored item))
         with (uniqueRegisterKey item).
Qed.

(** X8: Saving right after loading leaves alone every name under which the
    settings hold nothing or a text other than the reserved marker; when
    the marker is stored nowhere the settings are left exactly as they
    were. *)
Theorem load_then_save_keeps_settings (stored : QSettings)
    (this : AbstractSettings) :
  (forall name,
     (stored !! name = None
      \/ exists v, stored !! name = Some v /\ qeqb v (QStr UNDEFINED) = false) ->
     writeSettings stored (readSettings stored this) !! name = stored !! name)
  /\ ((forall name v, stored !! name = Some v -> qeqb v (QStr UNDEFINED) = false) ->
      writeSettings stored (readSettings stored this) = stored).
Proof.
  assert (forall name,
     (stored !! name = None
      \/ exists v, stored !! name = Some v /\ qeqb v (QStr UNDEFINED) = false) ->
     writeSettings stored (readSettings stored this) !! name = stored !! name)
    as Hnames.
  { intros name Hclean. unfold writeSettings, readSettings. simpl.
    assert (forall items (reached : QSettings),
              reached !! name = stored !! name ->
              foldl writeItem reached (readItem stored <$> items) !! name
              = stored !! name) as Hfold.
    { induction items as [|x rest IH]; intros reached Hagree; simpl; [done|].
      apply IH. by apply writeItem_readItem_agrees. }
    by apply Hfold. }
  split; [exact Hnames|].
  intros Hnomarker. apply map_eq. intros name. apply Hnames.
  destruct (stored !! name) as [v|] eqn:Hv; [right|by left].
  exists v. split; [done|]. by eapply Hnomarker.
Qed.

Lemma load_then_save_keeps_settings_witness :
  let stored : QSettings := {[ "dir" := QStr "/home"; "port_int" := QStr "80" ]} in
  let this :=
    snd ((addDefaultSettingInt "port" 80
          >> addDefaultSettingString "dir" (QStr "/tmp")
          >> addDefaultSettingBool "sound" true) newSettings) in
  (forall name v, stored !! name = Some v -> qeqb v (QStr UNDEFINED) = false)
  /\ writeSettings stored (readSettings stored this) = stored.
Proof.
  intros stored this.
  assert (forall name v, stored !! name = Some v ->
                         qeqb v (QStr UNDEFINED) = false) as Hnomarker.
  { intros name v Hv. unfold stored in Hv.
    apply lookup_insert_Some in Hv as [[_ <-]|[_ Hv]]; [done|].
    apply lookup_singleton_Some in Hv as [_ <-]. done. }
  split; [exact Hnomarker|].
  destruct (load_then_save_keeps_settings stored this) as [_ Hsame].
  exact (Hsame Hnomarker).
Defined.

(** ** Saving twice *)

Lemma writeItem_keeps (reached : QSettings) item name :
  is_Some (reached !! name) -> is_Some (writeItem reached item !! name).
Proof.
  intros Hsome.
  destruct (decide (uniqueRegisterKey item = name)) as [<-|Hne].
  - rewrite writeItem_same.
    apply contains_true in Hsome. rewrite Hsome, orb_true_r. by eexists.
  - by rewrite writeItem_other.
Qed.

Lemma writeItems_keeps (reached : QSettings) items name :
  is_Some (reached !! name) -> is_Some (foldl writeItem reached items !! name).
Proof.
  revert reached. induction items as [|x rest IH]; intros reached Hsome;
    simpl; [done|].
  by apply IH, writeItem_keeps.
Qed.

Lemma writeItem_insert_other (reached : QSettings) item name v :
  uniqueRegisterKey item <> name ->
  writeItem (<[name := v]> reached) item = <[name := v]> (writeItem reached item).
Proof.
  intros Hne. unfold writeItem, contains, setValue.
  rewrite lookup_insert_ne by done.
  destruct (_ || _); [|done].
  by apply insert_insert_ne.
Qed.

(** A name that is stored and that a later item will write again may
    hold anything meanwhile. *)
Lemma writeItems_overwrite (reached : QSettings) items name v :
  is_Some (reached !! name) ->
  name ∈ uniqueRegisterKey <$> items ->
  foldl writeItem (<[name := v]> reached) items = foldl writeItem reached items.
Proof.
  revert reached. induction items as [|x rest IH]; intros reached Hsome Hin;
    simpl in *.
  - by apply elem_of_nil in Hin.
  - destruct (decide (uniqueRegisterKey x = name)) as [Heq|Hne].
    + f_equal. unfold writeItem, contains, setValue. rewrite Heq.
      rewrite lookup_insert_eq.
      rewrite (bool_decide_eq_true_2 (is_Some (Some v))) by (by eexists).
      rewrite (bool_decide_eq_true_2 _ Hsome), !orb_true_r.
      apply insert_insert_eq.
    + rewrite writeItem_insert_other by done.
      apply IH; [by apply writeItem_keeps|].
      apply elem_of_cons in Hin as [Hin|Hin]; [congruence|done].
Qed.

(** X9: Saving is idempotent: a second [writeSettings] of the same registry
    leaves the settings as the first one left them, also when several
    items share a name. *)
Theorem save_twice_is_save_once (stored : QSettings) (this : AbstractSettings) :
  writeSettings (writeSettings stored this) this = writeSettings stored this.
Proof.
  unfold writeSettings. generalize (m_items this) as items. clear this.
  intros items. revert stored.
  induction items as [|x rest IH]; intros stored; simpl; [done|].
  set (saved := foldl writeItem (writeItem stored x) rest).
  assert (foldl writeItem saved rest = saved) as Hrest by apply IH.
  destruct (qneb (value x) (defaultValue x)
            || contains saved (uniqueRegisterKey x)) eqn:Hcond.
  - assert (is_Some (saved !! uniqueRegisterKey x)) as Hsome.
    { apply orb_true_iff in Hcond as [Hdiff|Hcont]; [|by apply contains_true].
      apply writeItems_keeps. rewrite writeItem_same, Hdiff. by eexists. }
    assert (writeItem saved x = <[uniqueRegisterKey x := value x]> saved) as ->
      by (unfold writeItem, setValue; by rewrite Hcond).
    destruct (decide (uniqueRegisterKey x ∈ uniqueRegisterKey <$> rest))
      as [Hin|Hnotin].
    + by rewrite writeItems_overwrite.
    + rewrite insert_id; [done|].
      unfold saved in *. rewrite writeItems_other in * by done.
      rewrite writeItem_same in *.
      destruct (qneb (value x) (defaultValue x)
                || contains stored (uniqueRegisterKey x)); [done|].
      by destruct Hsome.
  - assert (writeItem saved x = saved) as ->
      by (unfold writeItem; by rewrite Hcond).
    done.
Qed.

(** ** What no call undoes *)

Lemma grows_refl this : grows this this.
Proof. split; [reflexivity|done]. Qed.

Lemma grows_trans a b c : grows a b -> grows b c -> grows a c.
Proof. intros [Hab Nab] [Hbc Nbc]. split; [by etrans|auto]. Qed.

Lemma grows_same_schema before after :
  schemaOf <$> m_items after = schemaOf <$> m_items before ->
  grows before after.
Proof.
  intros Hschema.
  assert (pairOf <$> m_items after = pairOf <$> m_items before) as Hpairs.
  { change pairOf with ((fun s : KeyType * string * QString => s.1) ∘ schemaOf).
    by rewrite !list_fmap_compose, Hschema. }
  unfold grows. rewrite Hpairs. split; [reflexivity|done].
Qed.

Lemma schemaOf_assignFirst items k v :
  schemaOf <$> assignFirst items k v = schemaOf <$> items.
Proof.
  induction items as [|x rest IH]; simpl; [done|].
  destruct (String.eqb (key x) k); simpl; [done|].
  by f_equal.
Qed.

Lemma set_keeps_schema k v kt this :
  schemaOf <$> m_items (snd (_q_setSetting k v kt this))
  = schemaOf <$> m_items this.
Proof.
  destruct (set_outcome this k v kt) as [-> | ->]; [done|].
  apply schemaOf_assignFirst.
Qed.

Lemma setValuesFrom_keeps_schema k i vs this :
  schemaOf <$> m_items (snd (setValuesFrom k i vs this))
  = schemaOf <$> m_items this.
Proof.
  revert i this. induction vs as [|v vs IH]; intros i this; simpl; [done|].
  unfold andThen, setSettingString.
  pose proof (set_keeps_schema (subkey k i) v STRING this) as Hfirst.
  destruct (_q_setSetting (subkey k i) v STRING this) as [[[]|e] this1];
    simpl in *; [by rewrite IH|done].
Qed.

Lemma readSettings_keeps_schema stored this :
  schemaOf <$> m_items (readSettings stored this) = schemaOf <$> m_items this.
Proof.
  simpl. rewrite <- list_fmap_compose.
  apply list_fmap_ext. intros i x _. apply schemaOf_readItem.
Qed.

Lemma add_grows k d kt this :
  grows this (snd (_q_addDefaultSetting k d kt this)).
Proof.
  unfold _q_addDefaultSetting.
  destruct (illegalKey k); [apply grows_refl|].
  destruct (illegalValue d); [apply grows_refl|].
  pose proof (replaceDefault_spec (m_items this) k d kt) as Hspec.
  destruct (replaceDefault (m_items this) k d kt) as [items'|]; simpl.
  - destruct Hspec as (i & item & Hi & _ & _ & ->).
    assert (pairOf <$> <[i := setItemDefault item d]> (m_items this)
            = pairOf <$> m_items this) as Hsame.
    { rewrite list_fmap_insert. apply list_insert_id.
      by rewrite list_lookup_fmap, Hi. }
    split; simpl; rewrite Hsame; [reflexivity|done].
  - split; simpl; rewrite fmap_app.
    + by apply prefix_app_r.
    + intros Hnodup. apply NoDup_app. split; [done|]. split.
      * intros p Hp [->|Hnil%elem_of_nil]%elem_of_cons; [|done].
        apply list_elem_of_fmap in Hp as (item & Hpair & Hin).
        destruct (Hspec item Hin). unfold pairOf in Hpair. simpl in Hpair.
        split; congruence.
      * apply NoDup_singleton.
Qed.

Lemma andThen_grows (c1 c2 : Method unit) this :
  (forall that, grows that (snd (c1 that))) ->
  (forall that, grows that (snd (c2 that))) ->
  grows this (snd ((c1 >> c2) this)).
Proof.
  intros H1 H2. unfold andThen. specialize (H1 this).
  destruct (c1 this) as [[[]|e] this1]; simpl in *; [|done].
  eapply grows_trans; [exact H1|apply H2].
Qed.

Lemma addDefaultsFrom_grows k i ds this :
  grows this (snd (addDefaultsFrom k i ds this)).
Proof.
  revert i this. induction ds as [|d ds IH]; intros i this; simpl.
  - apply grows_refl.
  - apply andThen_grows; [intros that; apply add_grows|auto].
Qed.

Lemma call_grows w c : grows (registry w) (registry (call w c)).
Proof.
  destruct c; simpl;
    try apply add_grows; try apply addDefaultsFrom_grows;
    try (apply grows_same_schema; first
           [ apply set_keeps_schema
           | apply setValuesFrom_keeps_schema
           | apply readSettings_keeps_schema
           | done ]).
Qed.

Lemma calls_grow w calls : grows (registry w) (registry (foldl call w calls)).
Proof.
  revert w. induction calls as [|c calls IH]; intros w; simpl.
  - apply grows_refl.
  - eapply grows_trans; [apply call_grows|apply IH].
Qed.

(** X10: The registry only grows.  Whatever calls follow, the items registered
    so far stay where they are with their types and keys, nothing is ever
    removed, and no pair of type and key is ever held twice; a call other
    than a registration moreover leaves every default as it is. *)
Theorem registry_only_grows (stored : QSettings) (calls more : list Call) :
  let before := registry (run stored calls) in
  let after := registry (run stored (calls ++ more)) in
  pairOf <$> m_items before `prefix_of` pairOf <$> m_items after
  /\ length (m_items before) <= length (m_items after)
  /\ NoDup (pairOf <$> m_items after)
  /\ (forall c,
        registers c = false ->
        schemaOf <$> m_items (registry (call (run stored calls) c))
        = schemaOf <$> m_items before).
Proof.
  intros before after.
  assert (grows before after) as [Hprefix _].
  { unfold before, after, run. rewrite foldl_app. apply calls_grow. }
  split; [done|]. split.
  { apply prefix_length in Hprefix. by rewrite !length_fmap in Hprefix. }
  split.
  - destruct (calls_grow (start stored) (calls ++ more)) as [_ Hnodup].
    apply Hnodup. simpl. constructor.
  - intros c Hc. destruct c; try done; simpl.
    + apply set_keeps_schema.
    + apply set_keeps_schema.
    + apply set_keeps_schema.
    + apply setValuesFrom_keeps_schema.
    + apply readSettings_keeps_schema.
Qed.

Lemma registry_only_grows_witness :
  let calls := [AddDefaultSettingBool "sound" true; AddDefaultSettingInt "port" 80] in
  let more :=
    [SetSettingInt "port" 8080; AddDefaultSettingInt "port" 21;
     AddDefaultSettingString "dir" (QStr "/tmp"); ReadSettings] in
  pairOf <$> m_items (registry (run ∅ calls)) = [(BOOL, "sound"); (INTEGER, "port")]
  /\ pairOf <$> m_items (registry (run ∅ calls))
     `prefix_of` pairOf <$> m_items (registry (run ∅ (calls ++ more)))
  /\ NoDup (pairOf <$> m_items (registry (run ∅ (calls ++ more)))).
Proof.
  intros calls more. split; [reflexivity|].
  destruct (registry_only_grows ∅ calls more) as (Hprefix & _ & Hnodup & _).
  by split.
Defined.

(** ** Names in the settings *)

Lemma string_length_app (s t : string) :
  String.length (s +:+ t) = String.length s + String.length t.
Proof.
  induction s as [|a s IH]; [done|].
  change (String a s +:+ t) with (String a (s +:+ t)). simpl. by rewrite IH.
Qed.

Lemma string_app_assoc (s t u : string) : (s +:+ t) +:+ u = s +:+ (t +:+ u).
Proof.
  induction s as [|a s IH]; [done|].
  change (String a s +:+ t) with (String a (s +:+ t)).
  change (String a (s +:+ t) +:+ u) with (String a ((s +:+ t) +:+ u)).
  by rewrite IH.
Qed.

(** Two texts with endings of the same length are equal only if their
    stems and their endings are. *)
Lemma string_app_inj (s1 s2 t1 t2 : string) :
  String.length t1 = String.length t2 ->
  s1 +:+ t1 = s2 +:+ t2 -> s1 = s2 /\ t1 = t2.
Proof.
  intros Hlen. revert s2.
  induction s1 as [|a s1 IH]; intros [|b s2] Heq.
  - done.
  - change ("" +:+ t1) with t1 in Heq. subst t1.
    rewrite string_length_app in Hlen. simpl in Hlen. lia.
  - change ("" +:+ t2) with t2 in Heq. subst t2.
    rewrite string_length_app in Hlen. simpl in Hlen. lia.
  - change (String a s1 +:+ t1) with (String a (s1 +:+ t1)) in Heq.
    change (String b s2 +:+ t2) with (String b (s2 +:+ t2)) in Heq.
    injection Heq as -> Heq. destruct (IH _ Heq) as [-> ->]. done.
Qed.

(** Items with the same name have the same type and key, unless one of
    them is a string whose key ends like the name of the other. *)
Lemma uniqueRegisterKey_inj a b :
  (keyType a = STRING -> forall stem,
     key a <> stem +:+ "_bool" /\ key a <> stem +:+ "_int") ->
  (keyType b = STRING -> forall stem,
     key b <> stem +:+ "_bool" /\ key b <> stem +:+ "_int") ->
  uniqueRegisterKey a = uniqueRegisterKey b ->
  pairOf a = pairOf b.
Proof.
  unfold uniqueRegisterKey, pairOf. intros Ha Hb.
  destruct (keyType a) eqn:Ta, (keyType b) eqn:Tb; intros Heq.
  - by apply string_app_inj in Heq as [-> _].
  - replace (key a +:+ "_bool") with ((key a +:+ "_") +:+ "bool") in Heq
      by (by rewrite string_app_assoc).
    by apply string_app_inj in Heq as [_ ?].
  - destruct (Hb eq_refl (key a)) as [Hbool _]. congruence.
  - replace (key b +:+ "_bool") with ((key b +:+ "_") +:+ "bool") in Heq
      by (by rewrite string_app_assoc).
    by apply string_app_inj in Heq as [_ ?].
  - by apply string_app_inj in Heq as [-> _].
  - destruct (Hb eq_refl (key a)) as [_ Hint]. congruence.
  - destruct (Ha eq_refl (key b)) as [Hbool _]. congruence.
  - destruct (Ha eq_refl (key b)) as [_ Hint]. congruence.
  - by rewrite Heq.
Qed.

Lemma NoDup_fmap_same {A B : Type} (f : A -> B) (l : list A) (x y : A) :
  NoDup (f <$> l) -> x ∈ l -> y ∈ l -> f x = f y -> x = y.
Proof.
  induction l as [|z l IH]; simpl; [by intros _ ?%elem_of_nil|].
  intros [Hz Hl]%NoDup_cons [->|Hx]%elem_of_cons [->|Hy]%elem_of_cons Heq.
  - done.
  - destruct Hz. rewrite Heq. by apply list_elem_of_fmap_2.
  - destruct Hz. rewrite <- Heq. by apply list_elem_of_fmap_2.
  - by apply IH.
Qed.

(** X11: The suffixes [_bool] and [_int] keep the names of the items apart:
    in every state the calls can reach, if no string is registered under
    a key that itself ends in [_bool] or [_int], no two items share a
    name in the settings. *)
Theorem names_are_distinct (stored : QSettings) (calls : list Call) :
  let items := m_items (registry (run stored calls)) in
  plainStringKeys items ->
  NoDup (uniqueRegisterKey <$> items).
Proof.
  intros items Hplain.
  assert (NoDup (pairOf <$> items)) as Hpairs.
  { destruct (calls_grow (start stored) calls) as [_ Hnodup].
    apply Hnodup. simpl. constructor. }
  apply NoDup_fmap_2_strong; [|by eapply NoDup_fmap_1].
  intros a b Ha Hb Hname.
  apply (NoDup_fmap_same pairOf items); try done.
  apply uniqueRegisterKey_inj; [| |done].
  - intros Ht stem. by apply Hplain.
  - intros Ht stem. by apply Hplain.
Qed.

Lemma names_are_distinct_witness :
  let calls :=
    [AddDefaultSettingBool "sound" true;
     AddDefaultSettingInt "sound" 3;
     AddDefaultSettingString "dir" (QStr "/tmp")] in
  let items := m_items (registry (run ∅ calls)) in
  plainStringKeys items
  /\ uniqueRegisterKey <$> items = ["sound_bool"; "sound_int"; "dir"]
  /\ NoDup (uniqueRegisterKey <$> items).
Proof.
  intros calls items.
  assert (plainStringKeys items) as Hplain.
  { intros item stem Hin Ht.
    assert (key item = "dir") as ->.
    { repeat (apply elem_of_cons in Hin as [->|Hin]; [by try discriminate Ht|]).
      by apply elem_of_nil in Hin. }
    split; intros Heq.
    - replace (stem +:+ "_bool") with ((stem +:+ "_b") +:+ "ool") in Heq
        by (by rewrite string_app_assoc).
      change "dir" with ("" +:+ "dir") in Heq.
      by apply string_app_inj in Heq as [_ ?].
    - replace (stem +:+ "_int") with ((stem +:+ "_") +:+ "int") in Heq
        by (by rewrite string_app_assoc).
      change "dir" with ("" +:+ "dir") in Heq.
      by apply string_app_inj in Heq as [_ ?]. }
  split; [exact Hplain|]. split; [reflexivity|].
  exact (names_are_distinct ∅ calls Hplain).
Defined.

(** ** Registering a list *)

Lemma length_listItems k i ds : length (listItems k i ds) = length ds.
Proof. revert i. induction ds as [|d ds IH]; intros i; simpl; auto. Qed.

Lemma addDefaultsFrom_fresh k i ds this :
  (forall j, i <= j -> subkey k j ∉ key <$> m_items this) ->
  Forall (fun d => illegalValue d = false) ds ->
  addDefaultsFrom k i ds this
  = (Return tt,
     {| m_items := (m_items this ++ listItems k i ds)%list;
        m_default := m_default this; emitted := emitted this |}).
Proof.
  revert i this. induction ds as [|d ds IH]; intros i this Hfree Hlegal; simpl.
  - rewrite app_nil_r. by destruct this.
  - apply Forall_cons in Hlegal as [Hd Hds].
    unfold andThen, addDefaultSettingString, _q_addDefaultSetting.
    rewrite subkey_legal, Hd.
    rewrite replaceDefault_absent.
    + rewrite IH; [simpl; by rewrite <- app_assoc| |done].
      intros j Hj. simpl. rewrite fmap_app. simpl.
      intros [Hin|Hin]%elem_of_app.
      * by apply (Hfree j); [lia|].
      * apply elem_of_cons in Hin as [Heq%subkey_inj|Hin]; [lia|].
        by apply elem_of_nil in Hin.
    + intros item Hin [_ Hkey]. apply (Hfree i); [lia|].
      rewrite <- Hkey. by apply list_elem_of_fmap_2.
Qed.

Lemma collect_app (items more : list SettingsItem) dflt sub :
  collect (items ++ more) dflt sub
  = (collect items dflt sub ++ collect more dflt sub)%list.
Proof.
  induction items as [|x rest IH]; simpl; [done|].
  destruct (String.eqb (key x) sub); simpl; by rewrite IH.
Qed.

Lemma collect_listItems k i ds dflt j :
  collect (listItems k i ds) dflt (subkey k j)
  = if decide (i <= j)
    then option_list
           ((fun d => shown dflt (newItem (subkey k j) d STRING)) <$> ds !! (j - i))
    else [].
Proof.
  revert i. induction ds as [|d ds IH]; intros i; simpl.
  - by case_decide.
  - destruct (String.eqb (subkey k i) (subkey k j)) eqn:E.
    + apply String.eqb_eq, subkey_inj in E. subst j.
      rewrite decide_True by lia. rewrite Nat.sub_diag. simpl.
      rewrite IH. by rewrite decide_False by lia.
    + assert (i <> j) as Hne.
      { intros ->. by rewrite String.eqb_refl in E. }
      rewrite IH. repeat case_decide; try lia; [|done].
      by replace (j - i) with (S (j - S i)) by lia.
Qed.

(** When every sub-key holds the element of a list with its index, and
    nothing past the end of the list, the scan reads the list. *)
Lemma scanFrom_values items dflt k (vals : list QString) i n :
  (forall j, collect items dflt (subkey k j) = option_list (vals !! j)) ->
  scanFrom items dflt k i n = take n (drop i vals).
Proof.
  intros Hcollect. revert i. induction n as [|n IH]; intros i; simpl.
  - by rewrite take_0.
  - rewrite Hcollect, IH.
    destruct (vals !! i) as [v|] eqn:Hv; simpl.
    + by rewrite (drop_S _ _ _ Hv).
    + apply lookup_ge_None in Hv.
      rewrite !drop_ge by lia. by rewrite take_nil.
Qed.

Lemma collect_readItem_default (stored : QSettings) items sub :
  (forall item, item ∈ items -> key item = sub ->
                stored !! uniqueRegisterKey item = None) ->
  collect (readItem stored <$> items) false sub = collect items true sub.
Proof.
  induction items as [|x rest IH]; intros Hnone; simpl; [done|].
  destruct (String.eqb (key x) sub) eqn:E.
  - apply String.eqb_eq in E. simpl. f_equal.
    + change (value (readItem stored x) = defaultValue x).
      rewrite value_readItem, (Hnone x); [done|left|done].
    + apply IH. intros item Hin. apply Hnone. by right.
  - apply IH. intros item Hin. apply Hnone. by right.
Qed.

(** X12: A list of legal defaults registered under a key that holds no
    place marker and none of whose sub-keys is taken comes back from a
    list read: in the preview of the defaults, and outside it once
    [readSettings] has found none of the sub-keys stored.  The call
    appends one string item per element. *)
Theorem registered_list_is_read (this : AbstractSettings) (k : string)
    (ds : list QString) :
  noPlaceMarker k = true ->
  (forall j, subkey k j ∉ key <$> m_items this) ->
  Forall (fun d => illegalValue d = false) ds ->
  let outcome := addDefaultSettingStringList k ds this in
  fst outcome = Return tt
  /\ m_items (snd outcome) = (m_items this ++ listItems k 0 ds)%list
  /\ getSettingStringList (beginRestoreDefault (snd outcome)) k = ds
  /\ (forall stored : QSettings,
        (forall j, stored !! subkey k j = None) ->
        getSettingStringList
          (endRestoreDefault (readSettings stored (snd outcome))) k = ds).
Proof.
  intros _ Hfree Hlegal outcome. unfold outcome, addDefaultSettingStringList.
  rewrite addDefaultsFrom_fresh by (intros; auto).
  simpl. do 2 (split; [done|]).
  assert (forall j, collect (m_items this ++ listItems k 0 ds) true (subkey k j)
                    = option_list (ds !! j)) as Hcollect.
  { intros j. rewrite collect_app, collect_listItems.
    rewrite collect_firstItem_None by (by apply firstItem_None).
    rewrite decide_True by lia. rewrite Nat.sub_0_r. simpl.
    by destruct (ds !! j). }
  assert (length ds <= length (m_items this ++ listItems k 0 ds)) as Hlen.
  { rewrite length_app, length_listItems. lia. }
  split.
  - unfold getSettingStringList. simpl.
    rewrite (scanFrom_values _ _ _ ds) by done.
    rewrite drop_0. by apply take_ge.
  - intros stored Hnone. unfold getSettingStringList. simpl.
    rewrite length_fmap.
    rewrite (scanFrom_values _ _ _ ds).
    + rewrite drop_0. by apply take_ge.
    + intros j. rewrite <- Hcollect. apply collect_readItem_default.
      intros item [Hin|Hin]%elem_of_app Hkey.
      * destruct (Hfree j). rewrite <- Hkey. by apply list_elem_of_fmap_2.
      * assert (keyType item = STRING) as Ht.
        { clear -Hin. revert Hin. generalize 0.
          induction ds as [|d ds IH]; intros i Hin; simpl in Hin.
          - by apply elem_of_nil in Hin.
          - apply elem_of_cons in Hin as [->|Hin]; [done|by eapply IH]. }
        unfold uniqueRegisterKey. by rewrite Ht, Hkey.
Qed.

Lemma registered_list_is_read_witness :
  let this := snd (addDefaultSettingInt "port" 80 newSettings) in
  let ds := [QStr "a"; QStr "b"; QStr "c"] in
  (noPlaceMarker "paths" = true
   /\ (forall j, subkey "paths" j ∉ key <$> m_items this)
   /\ Forall (fun d => illegalValue d = false) ds)
  /\ getSettingStringList
       (beginRestoreDefault (snd (addDefaultSettingStringList "paths" ds this)))
       "paths" = ds.
Proof.
  intros this ds.
  assert (forall j, subkey "paths" j ∉ key <$> m_items this) as Hfree.
  { intros j Hin. apply elem_of_cons in Hin as [Heq|Hin];
      [|by apply elem_of_nil in Hin].
    change "port" with ("" +:+ "port") in Heq. unfold subkey in Heq.
    destruct (pretty j) as [|c t] eqn:Hp; [by apply pretty_nat_nonempty in Hp|].
    pose proof (numeral_pretty_nat j) as Hnum.
    pose proof (numeral_endsNumeral _ (pretty_nat_nonempty j) Hnum) as Hends.
    rewrite <- (endsNumeral_app "paths" _ (pretty_nat_nonempty j)) in Hends.
    rewrite Hp, Heq in Hends. done. }
  assert (Forall (fun d => illegalValue d = false) ds) as Hlegal
    by (by repeat constructor).
  split; [by repeat split|].
  by destruct (registered_list_is_read this "paths" ds eq_refl Hfree Hlegal)
    as (_ & _ & Hpreview & _).
Defined.

(** ** Writing a list over a longer one *)

Lemma set_keeps_default_flag k v kt this :
  m_default (snd (_q_setSetting k v kt this)) = m_default this.
Proof. by destruct (set_outcome this k v kt) as [-> | ->]. Qed.

Lemma setValuesFrom_keeps_default_flag k i vs this :
  m_default (snd (setValuesFrom k i vs this)) = m_default this.
Proof.
  revert i this. induction vs as [|v vs IH]; intros i this; simpl; [done|].
  unfold andThen, setSettingString.
  pose proof (set_keeps_default_flag (subkey k i) v STRING this) as Hfirst.
  destruct (_q_setSetting (subkey k i) v STRING this) as [[[]|e] this1];
    simpl in *; [by rewrite IH|done].
Qed.

(** A list write returns when every element is legal and every sub-key
    it needs is registered as a string. *)
Lemma setValuesFrom_registered k i vs this :
  Forall (fun v => illegalValue v = false) vs ->
  (forall j, j < length vs -> registeredAs this (subkey k (i + j)) STRING) ->
  fst (setValuesFrom k i vs this) = Return tt.
Proof.
  revert i this. induction vs as [|v vs IH]; intros i this Hlegal Hreg;
    simpl; [done|].
  apply Forall_cons in Hlegal as [Hv Hvs].
  unfold andThen, setSettingString.
  destruct (Hreg 0 ltac:(simpl; lia)) as (item & Hf & Ht).
  rewrite Nat.add_0_r in Hf.
  pose proof (fun k0 => set_schema this (subkey k i) v STRING k0) as Hschema.
  assert (fst (_q_setSetting (subkey k i) v STRING this) = Return tt) as Hret.
  { rewrite set_legal, Hf; [|auto with legal|done].
    rewrite bool_decide_eq_true_2 by done.
    by destruct (qneb (value item) v). }
  destruct (_q_setSetting (subkey k i) v STRING this) as [r this1].
  simpl in Hret, Hschema. subst r.
  apply IH; [done|].
  intros j Hj. eapply registeredAs_schema; [apply Hschema|].
  replace (S i + j) with (i + S j) by lia. apply Hreg. simpl. lia.
Qed.

Lemma collect_unique items sub :
  NoDup (key <$> items) ->
  collect items false sub = option_list (value <$> firstItem items sub).
Proof.
  intros Hnodup. destruct (firstItem items sub) as [item|] eqn:Hf; simpl.
  - by apply collect_firstItem_Some.
  - by apply collect_firstItem_None.
Qed.

Lemma scanFrom_split items dflt k i a b :
  scanFrom items dflt k i (a + b)
  = (scanFrom items dflt k i a ++ scanFrom items dflt k (i + a) b)%list.
Proof.
  revert i. induction a as [|a IH]; intros i; simpl.
  - by rewrite Nat.add_0_r.
  - rewrite IH, <- app_assoc. by replace (S i + a) with (i + S a) by lia.
Qed.

Lemma scanFrom_ext items others dflt k i n :
  (forall j, i <= j < i + n ->
     collect items dflt (subkey k j) = collect others dflt (subkey k j)) ->
  scanFrom items dflt k i n = scanFrom others dflt k i n.
Proof.
  revert i. induction n as [|n IH]; intros i Hsame; simpl; [done|].
  rewrite Hsame by lia. f_equal. apply IH. intros j Hj. apply Hsame. lia.
Qed.

Lemma scanFrom_written items k (vs : list QString) i n :
  (forall j, i <= j < i + n ->
     exists w v, collect items false (subkey k j) = [w]
                 /\ vs !! j = Some v /\ qeqb w v = true) ->
  Forall2 (fun w v => qeqb w v = true)
    (scanFrom items false k i n) (take n (drop i vs)).
Proof.
  revert i. induction n as [|n IH]; intros i Hone; simpl.
  - rewrite take_0. constructor.
  - destruct (Hone i ltac:(lia)) as (w & v & -> & Hv & Heq).
    rewrite (drop_S _ _ _ Hv). simpl. constructor; [done|].
    apply IH. intros j Hj. apply Hone. lia.
Qed.

(** As many sub-keys as are registered, so many items at least. *)
Lemma registered_subkeys_bound items k n :
  (forall j, j < n -> subkey k j ∈ key <$> items) ->
  n <= length items.
Proof.
  intros Hreg.
  assert (subkey k <$> seq 0 n ⊆+ key <$> items) as Hsub.
  { apply NoDup_submseteq.
    - apply NoDup_fmap_2_strong; [|apply NoDup_seq].
      intros a b _ _. apply subkey_inj.
    - intros x (j & -> & Hj%elem_of_seq)%list_elem_of_fmap. apply Hreg. lia. }
  apply submseteq_length in Hsub. by rewrite !length_fmap, length_seq in Hsub.
Qed.

Lemma scanFrom_length items dflt k i n :
  (forall j, i <= j < i + n ->
     exists w, collect items dflt (subkey k j) = [w]) ->
  length (scanFrom items dflt k i n) = n.
Proof.
  revert i. induction n as [|n IH]; intros i Hone; simpl; [done|].
  destruct (Hone i ltac:(lia)) as (w & ->). simpl. f_equal.
  apply IH. intros j Hj. apply Hone. lia.
Qed.

(** X13: Writing a list does not shorten the one that is registered.  For a
    key that holds no place marker, with no key registered twice, outside
    the preview, a list of legal values whose sub-keys are all registered
    as strings is written, and a list read then gives the written values
    followed by what the list held past their number before: the sub-keys
    beyond the new length keep their values and stay in the list. *)
Theorem shorter_list_keeps_tail (this : AbstractSettings) (k : string)
    (vs : list QString) :
  noPlaceMarker k = true ->
  m_default this = false ->
  NoDup (key <$> m_items this) ->
  Forall (fun v => illegalValue v = false) vs ->
  (forall j, j < length vs -> registeredAs this (subkey k j) STRING) ->
  let outcome := setSettingStringList k vs this in
  fst outcome = Return tt
  /\ exists written,
       Forall2 (fun w v => qeqb w v = true) written vs
       /\ getSettingStringList (snd outcome) k
          = (written ++ drop (length vs) (getSettingStringList this k))%list.
Proof.
  intros _ Hnormal Hnodup Hlegal Hreg outcome.
  unfold outcome, setSettingStringList.
  pose proof (setValuesFrom_registered k 0 vs this Hlegal Hreg) as Hret.
  pose proof (setValuesFrom_keeps_schema k 0 vs this) as Hschema.
  pose proof (setValuesFrom_keeps_default_flag k 0 vs this) as Hflag.
  pose proof (fun k0 => setValuesFrom_frame k 0 vs this k0) as Hframe.
  pose proof (setValuesFrom_returns k 0 vs this) as Hvalues.
  destruct (setValuesFrom k 0 vs this) as [r this'].
  simpl in *. subst r. split; [done|].
  specialize (Hvalues this' eq_refl).
  assert (key <$> m_items this' = key <$> m_items this) as Hkeys.
  { change key with ((fun s : KeyType * string * QString => s.1.2) ∘ schemaOf).
    by rewrite !list_fmap_compose, Hschema. }
  assert (length (m_items this') = length (m_items this)) as Hlen.
  { apply (f_equal length) in Hkeys. by rewrite !length_fmap in Hkeys. }
  assert (NoDup (key <$> m_items this')) as Hnodup' by (by rewrite Hkeys).
  assert (length vs <= length (m_items this)) as Hbound.
  { apply (registered_subkeys_bound _ k). intros j Hj.
    destruct (Hreg j Hj) as (item & Hf & _).
    rewrite <- (firstItem_key _ _ _ Hf).
    apply list_elem_of_fmap_2. by eapply firstItem_elem. }
  exists (scanFrom (m_items this') false k 0 (length vs)).
  split.
  - assert (Forall2 (fun w v => qeqb w v = true)
              (scanFrom (m_items this') false k 0 (length vs))
              (take (length vs) (drop 0 vs))) as Hwritten;
      [|by rewrite drop_0, take_ge in Hwritten].
    apply scanFrom_written. intros j Hj.
    destruct (lookup_lt_is_Some_2 vs j ltac:(lia)) as [v Hv].
    destruct (Hvalues j v Hv) as (w & Hw & Heq).
    exists w, v. split; [|done].
    rewrite collect_unique by done.
    unfold currentValue in Hw. by rewrite Hw.
  - unfold getSettingStringList. rewrite Hflag, Hnormal, Hlen.
    replace (length (m_items this))
      with (length vs + (length (m_items this) - length vs)) by lia.
    rewrite !scanFrom_split. simpl.
    replace (length vs + (length (m_items this) - length vs) - length vs)
      with (length (m_items this) - length vs) by lia.
    assert (length (scanFrom (m_items this) false k 0 (length vs)) = length vs)
      as Hold.
    { apply scanFrom_length. intros j Hj.
      destruct (Hreg j ltac:(lia)) as (item & Hf & _).
      exists (value item). rewrite collect_unique by done. by rewrite Hf. }
    rewrite (drop_app_length' _ _ (length vs)) by done. f_equal.
    apply scanFrom_ext. intros j Hj.
    rewrite !collect_unique by done. rewrite Hframe; [done|].
    intros j' Hj' Heq%subkey_inj. lia.
Qed.

Lemma shorter_list_keeps_tail_witness :
  let this :=
    readSettings ∅
      (snd (addDefaultSettingStringList "k" [QStr "a"; QStr "b"; QStr "c"]
              newSettings)) in
  let vs := [QStr "x"] in
  (noPlaceMarker "k" = true
   /\ m_default this = false
   /\ NoDup (key <$> m_items this)
   /\ Forall (fun v => illegalValue v = false) vs
   /\ (forall j, j < length vs -> registeredAs this (subkey "k" j) STRING))
  /\ getSettingStringList this "k" = [QStr "a"; QStr "b"; QStr "c"]
  /\ getSettingStringList (snd (setSettingStringList "k" vs this)) "k"
     = [QStr "x"; QStr "b"; QStr "c"].
Proof.
  intros this vs.
  assert (NoDup (key <$> m_items this)) as Hnodup.
  { apply (bool_decide_unpack _). by vm_compute. }
  assert (Forall (fun v => illegalValue v = false) vs) as Hlegal
    by (by repeat constructor).
  assert (forall j, j < length vs -> registeredAs this (subkey "k" j) STRING)
    as Hreg.
  { intros [|j] Hj; [by eexists|simpl in Hj; lia]. }
  split; [by repeat split|]. split; [reflexivity|].
  destruct (shorter_list_keeps_tail this "k" vs eq_refl eq_refl Hnodup Hlegal Hreg)
    as (_ & written & Hwritten & ->).
  apply Forall2_cons_inv_r in Hwritten as (w & rest & Hw & Hrest & ->).
  apply Forall2_nil_inv_r in Hrest as ->.
  apply qeqb_true in Hw. destruct w as [|s]; simpl in Hw.
  - discriminate Hw.
  - by rewrite Hw.
Defined.

(** * The preview of the defaults, and registering again *)

(** C5, as stated, fails for a key whose first item has another type than
    the getter: ["x"] is registered as a boolean and then as an integer
    with default 5.  Both registrations return, an integer item for ["x"]
    is in the registry, yet in the preview [getSettingInt("x")] throws
    [WrongTypeException] instead of returning 5, because the lookup ends
    on the boolean. *)
Lemma preview_read_of_shadowed_key_throws :
  let this :=
    beginRestoreDefault
      (registry (run ∅ [AddDefaultSettingBool "x" true;
                        AddDefaultSettingInt "x" 5])) in
  m_items this !! 1
  = Some {| keyType := INTEGER; key := "x"; value := QNull;
            defaultValue := QStr "5" |}
  /\ m_default this = true
  /\ getSettingInt this "x" = Throw WrongTypeException
  /\ getSettingInt this "x" <> Return 5%Z
  /\ getSettingBool this "x" = Return true.
Proof. by vm_compute. Qed.

(** C5, amended: while the defaults are shown, a read of a registered
    key by the getter of the type of its first item returns the default
    of that item, whatever was set before or is set meanwhile (a getter of
    another type throws [WrongTypeException]): a boolean registered with
    [b] reads [b], an integer registered with [z] reads [z], and a list
    read holds the defaults of the items it scans.  Entering and leaving
    the preview changes no item (nor the signal count); and after
    [endRestoreDefault] a read returns the current value again, which is
    the value of the last set that returned.  A set made during the
    preview leaves the preview on. *)
Theorem preview_shows_defaults_only (this : AbstractSettings) (k : string)
    (kt : KeyType) (item : SettingsItem) :
  illegalKey k = false ->
  firstItem (m_items this) k = Some item ->
  keyType item = kt ->
  _q_getSetting (beginRestoreDefault this) k kt = Return (defaultValue item)
  /\ (forall kt', kt' <> kt ->
        _q_getSetting (beginRestoreDefault this) k kt' = Throw WrongTypeException)
  /\ (forall b, kt = BOOL -> defaultValue item = boolToString b ->
        getSettingBool (beginRestoreDefault this) k = Return b)
  /\ (forall z, kt = INTEGER -> in_int_range z = true ->
        defaultValue item = intToString z ->
        getSettingInt (beginRestoreDefault this) k = Return z)
  /\ (kt = STRING ->
      getSettingString (beginRestoreDefault this) k = Return (defaultValue item))
  /\ (forall k', noPlaceMarker k' = true ->
        getSettingStringList (beginRestoreDefault this) k'
        = concat ((fun i => defaultValue <$>
                              filter (fun it => key it = subkey k' i) (m_items this))
                  <$> seq 0 (length (m_items this))))
  /\ m_items (beginRestoreDefault this) = m_items this
  /\ emitted (beginRestoreDefault this) = emitted this
  /\ m_items (endRestoreDefault this) = m_items this
  /\ emitted (endRestoreDefault this) = emitted this
  /\ _q_getSetting (endRestoreDefault (beginRestoreDefault this)) k kt
     = Return (value item)
  /\ (forall v this',
        _q_setSetting k v kt this = (Return tt, this')
        \/ _q_setSetting k v kt (beginRestoreDefault this) = (Return tt, this') ->
        _q_getSetting (beginRestoreDefault this') k kt = Return (defaultValue item)
        /\ exists v', qeqb v' v = true /\
             _q_getSetting (endRestoreDefault this') k kt = Return v')
  /\ (forall b this',
        setSettingBool k b this = (Return tt, this')
        \/ setSettingBool k b (beginRestoreDefault this) = (Return tt, this') ->
        getSettingBool (beginRestoreDefault this') k
        = getSettingBool (beginRestoreDefault this) k
        /\ getSettingBool (endRestoreDefault this') k = Return b)
  /\ (forall z this',
        in_int_range z = true ->
        setSettingInt k z this = (Return tt, this')
        \/ setSettingInt k z (beginRestoreDefault this) = (Return tt, this') ->
        getSettingInt (beginRestoreDefault this') k
        = getSettingInt (beginRestoreDefault this) k
        /\ getSettingInt (endRestoreDefault this') k = Return z)
  /\ (forall v kt' this',
        _q_setSetting k v kt' (beginRestoreDefault this) = (Return tt, this') ->
        beginRestoreDefault this' = this').
Proof.
  intros Hk Hf Ht.
  assert (forall that, m_items that = m_items this ->
            _q_getSetting that k kt = Return (shown (m_default that) item)) as Hget.
  { intros that Hthat. apply get_registered; [done| by rewrite Hthat |done]. }
  assert (_q_getSetting (beginRestoreDefault this) k kt
          = Return (defaultValue item)) as Hpreview by (by apply Hget).
  (* what a set that returned, in the preview or outside, leaves behind *)
  assert (forall v kt0 this',
            _q_setSetting k v kt0 this = (Return tt, this')
            \/ _q_setSetting k v kt0 (beginRestoreDefault this) = (Return tt, this') ->
            exists item',
              firstItem (m_items this') k = Some item'
              /\ keyType item' = kt0 /\ kt0 = kt
              /\ defaultValue item' = defaultValue item
              /\ qeqb (value item') v = true) as Hset.
  { intros v kt0 this' [Hcall|Hcall].
    - destruct (set_returns_item _ _ _ _ _ _ Hf Hcall)
        as (item' & Hf' & Ht' & Hsame & Hd & Hv & _).
      exists item'. repeat split; try done. congruence.
    - destruct (set_returns_item (beginRestoreDefault this) _ _ _ _ _ Hf Hcall)
        as (item' & Hf' & Ht' & Hsame & Hd & Hv & _).
      exists item'. repeat split; try done. congruence. }
  split; [done|]. split.
  { intros kt' Hne. unfold _q_getSetting. simpl.
    rewrite Hk, getLoop_firstItem, Hf.
    by rewrite bool_decide_eq_false_2 by congruence. }
  split.
  { intros b -> Hd. unfold getSettingBool. rewrite Hpreview. simpl.
    by rewrite Hd, stringToBool_boolToString. }
  split.
  { intros z -> Hrange Hd. unfold getSettingInt. rewrite Hpreview. simpl.
    by rewrite Hd, stringToInt_intToString. }
  split.
  { intros ->. unfold getSettingString. exact Hpreview. }
  split.
  { intros k' _.
    exact (scanFrom_concat (m_items this) true k' 0 (length (m_items this))). }
  do 4 (split; [done|]).
  split; [by apply Hget|].
  split.
  { intros v this' Hcall.
    destruct (Hset v kt this' Hcall) as (item' & Hf' & Ht' & _ & Hd & Hv).
    split.
    - rewrite (get_registered (beginRestoreDefault this') k kt item') by done.
      simpl. by rewrite Hd.
    - exists (value item'). split; [done|].
      by rewrite (get_registered (endRestoreDefault this') k kt item') by done. }
  split.
  { intros b this' Hcall.
    destruct (Hset (boolToString b) BOOL this' Hcall)
      as (item' & Hf' & Ht' & <- & Hd & Hv).
    unfold getSettingBool.
    rewrite (get_registered (beginRestoreDefault this') k BOOL item') by done.
    rewrite (get_registered (endRestoreDefault this') k BOOL item') by done.
    rewrite Hpreview. simpl. rewrite Hd. split; [done|].
    by rewrite (stringToBool_qeqb _ _ Hv), stringToBool_boolToString. }
  split.
  { intros z this' Hrange Hcall.
    destruct (Hset (intToString z) INTEGER this' Hcall)
      as (item' & Hf' & Ht' & <- & Hd & Hv).
    unfold getSettingInt.
    rewrite (get_registered (beginRestoreDefault this') k INTEGER item') by done.
    rewrite (get_registered (endRestoreDefault this') k INTEGER item') by done.
    rewrite Hpreview. simpl. rewrite Hd. split; [done|].
    by rewrite (stringToInt_qeqb _ _ Hv), stringToInt_intToString. }
  intros v kt' this' Hcall.
  pose proof (set_keeps_default_flag k v kt' (beginRestoreDefault this)) as Hflag.
  rewrite Hcall in Hflag. destruct this' as [items dflt count].
  simpl in Hflag. by rewrite Hflag.
Qed.

Lemma preview_shows_defaults_only_witness :
  let this :=
    snd ((addDefaultSettingBool "k" true >> setSettingBool "k" false) newSettings) in
  let item :=
    {| keyType := BOOL; key := "k"; value := QStr "<FALSE>";
       defaultValue := QStr "<TRUE>" |} in
  (illegalKey "k" = false
   /\ firstItem (m_items this) "k" = Some item
   /\ keyType item = BOOL)
  /\ getSettingBool this "k" = Return false
  /\ getSettingBool (beginRestoreDefault this) "k" = Return true
  /\ getSettingBool (endRestoreDefault (beginRestoreDefault this)) "k"
     = Return false
  /\ getSettingInt (beginRestoreDefault this) "k" = Throw WrongTypeException.
Proof.
  intros this item.
  split; [by repeat split|].
  destruct (preview_shows_defaults_only this "k" BOOL item
              eq_refl eq_refl eq_refl)
    as (_ & Hother & Hbool & _ & _ & _ & _ & _ & _ & _ & Hend & _).
  split; [reflexivity|].
  split; [exact (Hbool true eq_refl eq_refl)|].
  split.
  - unfold getSettingBool. by rewrite Hend.
  - unfold getSettingInt. by rewrite (Hother INTEGER).
Defined.

(** C6, as stated, fails while the defaults are shown: ["k"] is a
    boolean with default [true]; in the preview [setSettingBool("k", true)]
    returns, then ["k"] is registered again with default [false].  The
    current value of the item is still ["<TRUE>"], but [getSettingBool("k")]
    returns [false], the new default, not [true]. *)
Lemma reregistered_default_is_read_in_preview :
  let this :=
    registry (run ∅ [AddDefaultSettingBool "k" true; BeginRestoreDefault;
                     SetSettingBool "k" true;
                     AddDefaultSettingBool "k" false]) in
  m_items this
  = [{| keyType := BOOL; key := "k"; value := QStr "<TRUE>";
        defaultValue := QStr "<FALSE>" |}]
  /\ m_default this = true
  /\ getSettingBool this "k" = Return false
  /\ getSettingBool this "k" <> Return true
  /\ getSettingBool (endRestoreDefault this) "k" = Return true.
Proof. by vm_compute. Qed.

(** C6, amended: registering a key again under the type it already has
    replaces the default of that item and nothing else: no item is added,
    every key, type and current value stays, the preview flag and the
    signal count stay.  A value written by a setter is therefore still the
    current value afterwards.  Outside the preview, after
    [setSettingBool(k, b)] and a new registration of [k] as a boolean,
    [getSettingBool(k)] returns [b]; while the defaults are shown, the
    same read returns the newly registered default. *)
Theorem reregistering_replaces_default_only (this : AbstractSettings)
    (k : string) (kt : KeyType) (d : QString) :
  (exists item, item ∈ m_items this /\ keyType item = kt /\ key item = k) ->
  let this' := snd (_q_addDefaultSetting k d kt this) in
  withoutDefault <$> m_items this' = withoutDefault <$> m_items this
  /\ m_default this' = m_default this
  /\ emitted this' = emitted this
  /\ (forall k', currentValue this' k' = currentValue this k')
  /\ (illegalKey k = false -> illegalValue d = false ->
      exists i item,
        m_items this !! i = Some item /\ keyType item = kt /\ key item = k
        /\ _q_addDefaultSetting k d kt this = (Return tt, this')
        /\ m_items this' = <[i := setItemDefault item d]> (m_items this))
  /\ (forall this0 v,
        _q_setSetting k v kt this0 = (Return tt, this) ->
        exists v', qeqb v' v = true /\
          _q_getSetting (endRestoreDefault this') k kt = Return v')
  /\ (forall this0 b,
        kt = BOOL ->
        m_default this0 = false ->
        setSettingBool k b this0 = (Return tt, this) ->
        getSettingBool this' k = Return b)
  /\ (forall this0 v,
        illegalValue d = false ->
        m_default this0 = true ->
        _q_setSetting k v kt this0 = (Return tt, this) ->
        _q_getSetting this' k kt = Return d)
  /\ (forall this0 b b',
        kt = BOOL ->
        d = boolToString b' ->
        m_default this0 = true ->
        setSettingBool k b this0 = (Return tt, this) ->
        getSettingBool this' k = Return b').
Proof.
  intros (it & Hin & Hkt & Hkey) this'.
  assert (((illegalKey k = true \/ illegalValue d = true) /\ this' = this)
          \/ (illegalKey k = false /\ illegalValue d = false /\
              exists i item,
                m_items this !! i = Some item /\ keyType item = kt
                /\ key item = k
                /\ _q_addDefaultSetting k d kt this = (Return tt, this')
                /\ this' = {| m_items := <[i := setItemDefault item d]> (m_items this);
                              m_default := m_default this;
                              emitted := emitted this |})) as Hcases.
  { unfold this', _q_addDefaultSetting.
    destruct (illegalKey k) eqn:Hk; [left; split; [by left|done]|].
    destruct (illegalValue d) eqn:Hd; [left; split; [by right|done]|].
    pose proof (replaceDefault_spec (m_items this) k d kt) as Hspec.
    destruct (replaceDefault (m_items this) k d kt) as [items'|] eqn:Hrep;
      [|by destruct (Hspec it Hin)].
    destruct Hspec as (i & item & Hi & Ht & Hki & ->).
    right. do 2 (split; [done|]). by exists i, item. }
  assert (illegalKey k = false -> illegalValue d = false ->
          forall item0, firstItem (m_items this) k = Some item0 ->
                        keyType item0 = kt ->
                        firstItem (m_items this') k = Some (setItemDefault item0 d))
    as Hdef.
  { intros Hk Hd item0 Hf0 Ht0.
    destruct (add_lookup this k d kt k Hk Hd) as (_ & _ & _ & Hlook).
    unfold this'. rewrite Hlook, Hf0.
    by rewrite bool_decide_eq_true_2, (firstItem_key _ _ _ Hf0), String.eqb_refl. }
  assert (forall this0 v,
            illegalValue d = false ->
            m_default this0 = true ->
            _q_setSetting k v kt this0 = (Return tt, this) ->
            _q_getSetting this' k kt = Return d) as Hshown.
  { intros this0 v Hd Hpreview Hcall.
    destruct (set_returns _ _ _ _ _ Hcall) as (Hk & _ & it0 & Hf0 & _).
    destruct (set_returns_item _ _ _ _ _ _ Hf0 Hcall)
      as (it1 & Hf1 & Ht1 & _ & _ & _ & Hm1).
    rewrite (get_registered this' k kt (setItemDefault it1 d));
      [|done|by apply Hdef|done].
    destruct (add_lookup this k d kt k Hk Hd) as (_ & Hflag & _).
    fold this' in Hflag. by rewrite Hflag, Hm1, Hpreview. }
  clearbody this'.
  assert (withoutDefault <$> m_items this' = withoutDefault <$> m_items this
          /\ m_default this' = m_default this
          /\ emitted this' = emitted this) as (Hsame & Hflag & Hcount).
  { destruct Hcases as [[_ ->] | (_ & _ & i & item & Hi & _ & _ & _ & ->)];
      [done|].
    simpl. split; [|done]. by apply withoutDefault_insert. }
  assert (forall k', withoutDefault <$> firstItem (m_items this') k'
                     = withoutDefault <$> firstItem (m_items this) k') as Hfirst.
  { intros k'. by apply firstItem_withoutDefault. }
  assert (forall this0 v,
            _q_setSetting k v kt this0 = (Return tt, this) ->
            exists item', firstItem (m_items this') k = Some item'
                          /\ keyType item' = kt /\ qeqb (value item') v = true
                          /\ illegalKey k = false
                          /\ m_default this0 = m_default this') as Hset.
  { intros this0 v Hcall.
    destruct (set_returns _ _ _ _ _ Hcall) as (Hk & _ & it0 & Hf0 & _).
    destruct (set_returns_item _ _ _ _ _ _ Hf0 Hcall)
      as (it1 & Hf1 & Ht1 & _ & _ & Hv1 & Hm1).
    specialize (Hfirst k). rewrite Hf1 in Hfirst.
    destruct (firstItem (m_items this') k) as [it2|]; [|done].
    injection Hfirst as Hkt2 _ Hv2.
    exists it2. rewrite Hkt2, Hv2, Hflag. by repeat split. }
  do 3 (split; [done|]).
  split.
  { intros k'. unfold currentValue. specialize (Hfirst k').
    destruct (firstItem (m_items this') k'), (firstItem (m_items this) k');
      simpl in *; try done.
    injection Hfirst as _ _ Hv. by rewrite Hv. }
  split.
  { intros Hk Hd.
    destruct Hcases as [[[?|?] _] | (_ & _ & i & item & Hi & Ht & Hki & Hcall & ->)];
      [congruence..|].
    by exists i, item. }
  split.
  { intros this0 v Hcall.
    destruct (Hset this0 v Hcall) as (item' & Hf' & Ht' & Hv' & Hk & _).
    exists (value item'). split; [done|].
    by rewrite (get_registered _ k kt item'). }
  split.
  { intros this0 b -> Hnormal Hcall.
    destruct (Hset this0 _ Hcall) as (item' & Hf' & Ht' & Hv' & Hk & Hm').
    unfold getSettingBool. rewrite (get_registered _ k BOOL item') by done.
    rewrite <- Hm', Hnormal. simpl.
    by rewrite (stringToBool_qeqb _ _ Hv'), stringToBool_boolToString. }
  split; [exact Hshown|].
  intros this0 b b' -> -> Hpreview Hcall.
  unfold getSettingBool.
  rewrite (Hshown this0 (boolToString b) (boolToString_legal b') Hpreview Hcall).
  simpl. by rewrite stringToBool_boolToString.
Qed.

Lemma reregistering_replaces_default_only_witness :
  let this0 := snd (addDefaultSettingBool "k" true newSettings) in
  let this := snd (setSettingBool "k" true this0) in
  let this' := snd (addDefaultSettingBool "k" false this) in
  let shown0 := beginRestoreDefault this0 in
  let shown := snd (setSettingBool "k" true shown0) in
  let shown' := snd (addDefaultSettingBool "k" false shown) in
  (exists item, item ∈ m_items this /\ keyType item = BOOL /\ key item = "k")
  /\ getSettingBool this' "k" = Return true
  /\ getSettingBool shown' "k" = Return false
  /\ storedDefault this' "k" = Some (QStr "<FALSE>").
Proof.
  intros this0 this this' shown0 shown shown'.
  assert (exists item, item ∈ m_items this /\ keyType item = BOOL /\ key item = "k")
    as Hreg.
  { exists {| keyType := BOOL; key := "k"; value := QStr "<TRUE>";
              defaultValue := QStr "<TRUE>" |}.
    split; [left | done]. }
  assert (exists item, item ∈ m_items shown /\ keyType item = BOOL /\ key item = "k")
    as Hreg'.
  { exists {| keyType := BOOL; key := "k"; value := QStr "<TRUE>";
              defaultValue := QStr "<TRUE>" |}.
    split; [left | done]. }
  split; [exact Hreg|].
  destruct (reregistering_replaces_default_only this "k" BOOL
              (boolToString false) Hreg)
    as (_ & _ & _ & _ & _ & _ & Hbool & _).
  destruct (reregistering_replaces_default_only shown "k" BOOL
              (boolToString false) Hreg')
    as (_ & _ & _ & _ & _ & _ & _ & _ & Hpreview).
  split; [exact (Hbool this0 true eq_refl eq_refl eq_refl)|].
  split; [|reflexivity].
  exact (Hpreview shown0 true false eq_refl eq_refl eq_refl eq_refl).
Defined.
